(** * Imputation of truncated regression targets: a shallow embedding

    This development follows the notebook [incubator/truncated-values.ipynb].
    The notebook is a straight-line script over NumPy arrays: it clips a
    target vector at [truncation_point], draws replacement values with
    [scipy.stats.truncnorm.rvs], scatters them into a copy of the clipped
    vector with [np.put], and scores a regressor with [variance_explained].

    Modelling choices.

    - Array entries are finite real numbers.  They are modelled by the
      canonical rationals [Qc]: arithmetic is exact, every value has one
      representation (so Leibniz equality plays the role of bit-for-bit
      equality), and there is no NaN, infinity or signed zero among array
      entries.  Rounding and overflow of float64 are outside the model.
    - A NumPy scalar produced by a reduction or a division can be
      non-finite ([0/0], [x/0]); such scalars have type [npfloat].
    - Arrays are mutable objects.  They live in a heap indexed by
      references, and the notebook cells are programs of a small
      state-and-exception monad over that heap, so that copying and
      in-place update are told apart.
    - Library calls (NumPy, SciPy, scikit-learn) are modelled by their
      documented behaviour.  The random source of [truncnorm.rvs] is an
      explicit stream of standardised draws. *)

From Stdlib Require Import QArith Qcanon.
From stdpp Require Import base option list gmap numbers strings sorting.

Local Open Scope Qc_scope.

(** ** Array primitives on the data of one-dimensional arrays *)

Module Np.

(** [np.minimum] on two scalars: the C loop is [(a < b) ? a : b]. *)
Definition minimum (x y : Qc) : Qc :=
  if bool_decide (x < y) then x else y.

(** The data of [np.clip(a, a_min=None, a_max=m)]: with no lower bound
    the clip is the elementwise minimum with [m]. *)
Definition clip_max (a : list Qc) (a_max : Qc) : list Qc :=
  (λ x, minimum x a_max) <$> a.

(** The boolean array [a == v]. *)
Definition equal (a : list Qc) (v : Qc) : list bool :=
  (λ x, bool_decide (x = v)) <$> a.

(** The index array of [np.where(mask)]: positions of the true entries,
    in increasing order.  [nonzero_from i] numbers the positions from [i]. *)
Fixpoint nonzero_from (i : nat) (mask : list bool) : list nat :=
  match mask with
  | [] => []
  | b :: mask' =>
      if b then i :: nonzero_from (S i) mask' else nonzero_from (S i) mask'
  end.

Definition where_ (mask : list bool) : list nat := nonzero_from 0 mask.

(** Boolean-mask indexing [a[mask]]: the entries of [a] whose mask bit is
    set; a mask of another length is an [IndexError]. *)
Fixpoint select (a : list Qc) (mask : list bool) : list Qc :=
  match a, mask with
  | x :: a', b :: mask' => if b then x :: select a' mask' else select a' mask'
  | _, _ => []
  end.

Definition getitem_mask (a : list Qc) (mask : list bool) : option (list Qc) :=
  if decide (length mask = length a) then Some (select a mask) else None.

(** [np.put(a, ind, v)] with the default [mode='raise']: the [k]-th index
    receives [v[k mod len(v)]] ([v] is repeated as necessary); an index
    outside the array raises; an empty [v] leaves the array as it is. *)
Fixpoint put_loop (a : list Qc) (k : nat) (ind : list nat) (v : list Qc)
  : option (list Qc) :=
  match ind with
  | [] => Some a
  | i :: ind' =>
      if decide (i < length a)%nat then
        x ← v !! (k mod length v)%nat;
        put_loop (<[i := x]> a) (S k) ind' v
      else None
  end.

Definition put (a : list Qc) (ind : list nat) (v : list Qc) : option (list Qc) :=
  match v with
  | [] => Some a
  | _ :: _ => put_loop a 0 ind v
  end.

(** [np.max] of a non-empty array ([ValueError] on an empty one). *)
Definition max (a : list Qc) : option Qc :=
  match a with
  | [] => None
  | x :: a' => Some (foldl (λ m y, if bool_decide (m < y) then y else m) x a')
  end.

End Np.

(** ** [scipy.stats.truncnorm.rvs]

    [truncnorm] is a location-scale family.  Its shape parameters [a] and
    [b] bound the *standardised* variate: the generator draws [z] with
    [a <= z <= b] and returns [z * scale + loc].  The stream [draws] is the
    random source: [draws k] is the [k]-th standardised variate.  [rvs]
    raises ("Domain error in arguments") unless [a < b] and [scale >= 0]. *)

Module Truncnorm.

Definition in_support (a b z : Qc) : Prop := a ≤ z ∧ z ≤ b.

Definition argcheck (a b : Qc) : bool := bool_decide (a < b).

Definition rvs (a b loc scale : Qc) (size : nat) (draws : nat → Qc)
  : option (list Qc) :=
  if argcheck a b && bool_decide (0 ≤ scale)
  then Some ((λ k, draws k * scale + loc) <$> seq 0 size)
  else None.

End Truncnorm.

(** ** The heap of arrays and the notebook monad *)

(** References to array objects. *)
Abbreviation ref := nat (only parsing).

(** A computation reads and updates the heap of array objects and may
    raise ([None]). *)
Definition M (A : Type) : Type := gmap nat (list Qc) → option (A * gmap nat (list Qc)).

Definition ret {A} (x : A) : M A := λ h, Some (x, h).

Definition bind {A B} (m : M A) (f : A → M B) : M B :=
  λ h, match m h with
       | Some (x, h') => f x h'
       | None => None
       end.

Definition raise {A} : M A := λ _, None.

#[global] Instance M_ret : MRet M := @ret.
#[global] Instance M_bind : MBind M := λ A B f m, bind m f.

(** A new array object at a reference not yet in use. *)
Definition alloc (d : list Qc) : M ref :=
  λ h, let r := fresh (dom h) in Some (r, <[r := d]> h).

Definition load (r : ref) : M (list Qc) :=
  λ h, match h !! r with
       | Some d => Some (d, h)
       | None => None
       end.

Definition store (r : ref) (d : list Qc) : M unit :=
  λ h, match h !! r with
       | Some _ => Some (tt, <[r := d]> h)
       | None => None
       end.

Definition lift {A} (o : option A) : M A :=
  match o with
  | Some x => ret x
  | None => raise
  end.

Fixpoint load_all (rs : list ref) : M (list (list Qc)) :=
  match rs with
  | [] => ret []
  | r :: rs' => d ← load r; ds ← load_all rs'; ret (d :: ds)
  end.

(** *** NumPy calls on array objects *)

(** [np.clip(a, a_min=None, a_max=m)] returns a new array. *)
Definition np_clip (a : ref) (a_max : Qc) : M ref :=
  d ← load a; alloc (Np.clip_max d a_max).

(** [np.concatenate(arrays)] returns a new array; an empty sequence of
    arrays is a [ValueError]. *)
Definition np_concatenate (arrs : list ref) : M ref :=
  match arrs with
  | [] => raise
  | _ :: _ => ds ← load_all arrs; alloc (concat ds)
  end.

(** [np.copy(a)] returns a new array with the same data. *)
Definition np_copy (a : ref) : M ref :=
  d ← load a; alloc d.

(** [a == v], a temporary boolean array. *)
Definition np_equal (a : ref) (v : Qc) : M (list bool) :=
  d ← load a; ret (Np.equal d v).

(** [a[mask]] returns a new array. *)
Definition np_getitem_mask (a : ref) (mask : list bool) : M ref :=
  d ← load a; s ← lift (Np.getitem_mask d mask); alloc s.

Definition np_len (a : ref) : M nat :=
  d ← load a; ret (length d).

(** [np.put(a, ind, v)] updates [a] in place and returns nothing. *)
Definition np_put (a : ref) (ind : list nat) (v : ref) : M unit :=
  d ← load a; w ← load v; d' ← lift (Np.put d ind w); store a d'.

(** [truncnorm.rvs(a, b, loc, scale, size)] returns a new array. *)
Definition truncnorm_rvs (a b loc scale : Qc) (size : nat) (draws : nat → Qc) : M ref :=
  v ← lift (Truncnorm.rvs a b loc scale size draws); alloc v.

(** ** The notebook cells *)

(** [truncation_point = 2] *)
Definition truncation_point : Qc := Qc_of_Z 2.

(** [data_trunc = np.concatenate([np.clip(y, a_min=None, a_max=truncation_point),])] *)
Definition data_trunc (y : ref) : M ref :=
  c ← np_clip y truncation_point;
  np_concatenate [c].

(** [imputed_values = truncnorm.rvs(a=truncation_point,
      b=truncation_point * 20, loc=impute_mu, scale=impute_sig,
      size=len(data_trunc[data_trunc == truncation_point]))] *)
Definition imputed_values (data_trunc : ref) (impute_mu impute_sig : Qc)
    (draws : nat → Qc) : M ref :=
  mask ← np_equal data_trunc truncation_point;
  sel ← np_getitem_mask data_trunc mask;
  size ← np_len sel;
  truncnorm_rvs truncation_point (truncation_point * Qc_of_Z 20)
    impute_mu impute_sig size draws.

(** [(idxs,) = np.where(data_trunc == truncation_point)
    data_imp = np.copy(data_trunc)
    np.put(data_imp, idxs, imputed_values)]
    The cell yields the index array and the reference of [data_imp]. *)
Definition data_imp (data_trunc imputed_values : ref) : M (list nat * ref) :=
  mask ← np_equal data_trunc truncation_point;
  let idxs := Np.where_ mask in
  data_imp ← np_copy data_trunc;
  _ ← np_put data_imp idxs imputed_values;
  ret (idxs, data_imp).

(** The imputation step: the draw and the scatter, in the order the
    notebook runs them.  The result names the arrays [imputed_values],
    [idxs] and [data_imp]. *)
Definition imputation (data_trunc : ref) (impute_mu impute_sig : Qc)
    (draws : nat → Qc) : M (ref * list nat * ref) :=
  iv ← imputed_values data_trunc impute_mu impute_sig draws;
  '(idxs, di) ← data_imp data_trunc iv;
  mret (iv, idxs, di).

(** Truncation followed by imputation, from the target vector [y]. *)
Definition impute (y : ref) (impute_mu impute_sig : Qc) (draws : nat → Qc)
  : M (ref * ref * list nat * ref) :=
  dt ← data_trunc y;
  '(iv, idxs, di) ← imputation dt impute_mu impute_sig draws;
  mret (dt, iv, idxs, di).

(** ** Scalars, reductions and the score *)

(** A float64 scalar: a finite value, an infinity with its sign, or NaN. *)
Inductive npfloat : Type :=
  | Fin (q : Qc)
  | Inf (neg : bool)
  | NaN.


(** Float division.  A finite value over zero is an infinity with the
    sign of the numerator, [0/0] is NaN; NumPy warns and goes on. *)
Definition fdiv (x y : npfloat) : npfloat :=
  match x, y with
  | NaN, _ | _, NaN => NaN
  | Inf _, Inf _ => NaN
  | Inf s, Fin q => Inf (xorb s (bool_decide (q < 0)))
  | Fin _, Inf _ => Fin 0
  | Fin p, Fin q =>
      if bool_decide (q = 0)
      then (if bool_decide (p = 0) then NaN else Inf (bool_decide (p < 0)))
      else Fin (p / q)
  end.

Definition fsub (x y : npfloat) : npfloat :=
  match x, y with
  | NaN, _ | _, NaN => NaN
  | Inf s, Inf t => if bool_decide (s = t) then NaN else Inf s
  | Inf s, Fin _ => Inf s
  | Fin _, Inf t => Inf (negb t)
  | Fin p, Fin q => Fin (p - q)
  end.

Definition Qc_of_nat (n : nat) : Qc := Qc_of_Z (Z.of_nat n).

(** [np.sum] of a one-dimensional array. *)
Definition np_sum (a : list Qc) : Qc := foldr Qcplus 0 a.

(** [np.mean]: the sum divided by the number of entries ([0/0] on an
    empty array). *)
Definition np_mean (a : list Qc) : npfloat :=
  fdiv (Fin (np_sum a)) (Fin (Qc_of_nat (length a))).

(** [np.var] (with [ddof=0]): the mean of the squared deviations from
    the mean. *)
Definition np_var (a : list Qc) : npfloat :=
  match np_mean a with
  | Fin m =>
      fdiv (Fin (np_sum ((λ x, (x - m) * (x - m)) <$> a)))
           (Fin (Qc_of_nat (length a)))
  | _ => NaN
  end.

(** [a - b] on one-dimensional arrays, with NumPy's broadcasting: equal
    lengths subtract entry by entry, a one-entry array is stretched, any
    other pair of shapes is a [ValueError]. *)
Definition np_subtract (a b : list Qc) : option (list Qc) :=
  if decide (length a = length b) then Some (zip_with Qcminus a b)
  else match a, b with
       | [x], _ => Some ((λ y, x - y) <$> b)
       | _, [y] => Some ((λ x, x - y) <$> a)
       | _, _ => None
       end.

(** An n-dimensional array: its shape and its entries in C order. *)
Record ndarray : Type := { shape : list nat; data : list Qc }.

(** [a.ravel()]: the entries as a one-dimensional array. *)
Definition ravel (a : ndarray) : list Qc := data a.

(** Anything with a [predict] method. *)
Record estimator : Type := { predict : ndarray → ndarray }.

(** [def variance_explained(est, X, y):
       preds = est.predict(X)
       return 1 - np.var(preds.ravel() - y.ravel()) / np.var(y.ravel())] *)
Definition variance_explained (est : estimator) (X y : ndarray) : option npfloat :=
  let preds := predict est X in
  r ← np_subtract (ravel preds) (ravel y);
  Some (fsub (Fin 1) (fdiv (np_var r) (np_var (ravel y)))).

(** ** The posterior estimate *)

(** [impute_mu = trace1["Normal_mu"].mean()]; a trace maps a variable
    name to its samples, and a missing name is a [KeyError]. *)
Definition impute_mu (trace1 : gmap string (list Qc)) : option npfloat :=
  samples ← trace1 !! "Normal_mu"; Some (np_mean samples).

(** [impute_sig = trace1["Normal_sig"].mean()] *)
Definition impute_sig (trace1 : gmap string (list Qc)) : option npfloat :=
  samples ← trace1 !! "Normal_sig"; Some (np_mean samples).

(** ** The data generator

    [sklearn.datasets.make_regression] is a library call.  Its handling of
    the size parameters: [n_informative] is first replaced by
    [min(n_features, n_informative)]; the arrays are then allocated, and a
    negative dimension is rejected by NumPy ("negative dimensions are not
    allowed").  The target is the product of the features with the
    coefficients, squeezed.  The random content comes from the random
    state: [randn i j] is the feature [j] of sample [i], [ground_truth j t]
    the coefficient of feature [j] for target [t]. *)

Record random_state : Type :=
  { randn : nat → nat → Qc; ground_truth : nat → nat → Qc }.

(** The entries of a [rows] by [cols] array, in C order. *)
Definition table (rows cols : nat) (f : nat → nat → Qc) : list Qc :=
  flat_map (λ i, f i <$> seq 0 cols) (seq 0 rows).

(** [np.squeeze]: the axes of length one are dropped. *)
Definition squeeze (a : ndarray) : ndarray :=
  {| shape := filter (λ n, n ≠ 1%nat) (shape a); data := data a |}.

Definition make_regression (n_samples n_features n_informative n_targets : Z)
    (rs : random_state) : option (ndarray * ndarray) :=
  let n_informative := Z.min n_features n_informative in
  if bool_decide (0 ≤ n_samples ∧ 0 ≤ n_features
                  ∧ 0 ≤ n_informative ∧ 0 ≤ n_targets)%Z
  then
    let ns := Z.to_nat n_samples in
    let nf := Z.to_nat n_features in
    let nt := Z.to_nat n_targets in
    let X := {| shape := [ns; nf]; data := table ns nf (randn rs) |} in
    let y := {| shape := [ns; nt];
                data := table ns nt (λ i t,
                  np_sum ((λ j, randn rs i j * ground_truth rs j t) <$> seq 0 nf)) |} in
    Some (X, squeeze y)
  else None.

(** [X, y = make_regression(n_samples=1000, n_features=100,
                            n_informative=10, n_targets=1)
    y = y / 100] *)
Definition generate (rs : random_state) : option (ndarray * ndarray) :=
  '(X, y) ← make_regression 1000 100 10 1 rs;
  Some (X, {| shape := shape y; data := (λ v, v / Qc_of_Z 100) <$> data y |}).

(** ** The empirical distribution plot *)

(** [np.sort(a)]: a copy of the entries in ascending order.  Whatever
    algorithm NumPy runs, the result is the one ascending arrangement of
    the entries (see [np_sort_unique]). *)
Definition np_sort (a : list Qc) : list Qc := merge_sort Qcle a.

(** [np.arange(1, n + 1) / n]: the entries [1/n, 2/n, ..., n/n].  For
    [n = 0] the array is empty and nothing is divided. *)
Definition arange_over (n : nat) : list Qc :=
  (λ k, Qc_of_nat k / Qc_of_nat n) <$> seq 1 n.

(** One scatter series of an axes object: its points and its keywords. *)
Record collection : Type :=
  { points : list (Qc * Qc); keywords : gmap string string }.

(** [ax.scatter(x, y, **kwargs)] adds one series to the axes; [x] and [y]
    of different sizes are a [ValueError]. *)
Definition ax_scatter (ax : list collection) (x y : list Qc)
    (kwargs : gmap string string) : option (list collection) :=
  if decide (length x = length y)
  then Some (ax ++ [{| points := zip x y; keywords := kwargs |}])
  else None.

(** [def ecdf_scatter(data, ax, kwargs):
       x, y = np.sort(data), np.arange(1, len(data) + 1) / len(data)
       ax.scatter(x, y, **kwargs)]
    The result is the axes after the call. *)
Definition ecdf_scatter (data : list Qc) (ax : list collection)
    (kwargs : gmap string string) : option (list collection) :=
  let x := np_sort data in
  let y := arange_over (length data) in
  ax_scatter ax x y kwargs.

(** [fig, ax = plt.subplots()
    ecdf_scatter(y, ax, dict(label="original"))
    ecdf_scatter(data_imp, ax, dict(label="imputed"))] *)
Definition ecdf_plot (y data_imp : list Qc) : option (list collection) :=
  ax ← ecdf_scatter y [] {[ "label" := "original" ]};
  ecdf_scatter data_imp ax {[ "label" := "imputed" ]}.

(** ** The table of scores *)

(** [pd.DataFrame(columns)] from a dictionary of arrays: the arrays must
    have one length ("All arrays must be of the same length"). *)
Definition DataFrame (columns : list (string * list npfloat))
  : option (list (string * list npfloat)) :=
  match columns with
  | [] => Some []
  | (_, c) :: _ =>
      if bool_decide (Forall (λ col, length col.2 = length c) columns)
      then Some columns else None
  end.

(** [df.melt(var_name=..., value_name=...)] without identifier columns:
    one row per cell, column after column, made of the name of the
    column and the value. *)
Definition melt (df : list (string * list npfloat)) : list (string * npfloat) :=
  flat_map (λ col, (λ v, (col.1, v)) <$> col.2) df.

(** [scores_df = pd.DataFrame({"original": scores_ori, "imputed": scores_imp,})
      .melt(var_name="data", value_name="model_variance_explained")] *)
Definition scores_df (scores_ori scores_imp : list npfloat)
  : option (list (string * npfloat)) :=
  df ← DataFrame [("original", scores_ori); ("imputed", scores_imp)];
  Some (melt df).

(** The values of the rows of a melted table whose [data] cell is [name]:
    [df[df.data == name].model_variance_explained]. *)
Definition rows_of (name : string) (df : list (string * npfloat)) : list npfloat :=
  snd <$> filter (λ row, row.1 = name) df.

(** ** Reference functions used in the statements *)

(** The smaller of two values, as the censoring rule
    [observed = min(true, boundary)] reads. *)
Definition Qc_min (x y : Qc) : Qc := if decide (x ≤ y) then x else y.

(** The data of the censored vector for the target data [ys]. *)
Definition censor (ys : list Qc) : list Qc := Np.clip_max ys truncation_point.

(** The number of entries of [cs] that equal the boundary. *)
Definition count_boundary (cs : list Qc) : nat :=
  length (filter (λ x, x = truncation_point) cs).

(** The number of entries of [cs] at or above the boundary. *)
Definition count_at_or_above (cs : list Qc) : nat :=
  length (filter (λ x, truncation_point ≤ x) cs).

(** The draws of the imputation cell for a vector with [n] boundary entries. *)
Definition drawn (mu sig : Qc) (n : nat) (draws : nat → Qc) : list Qc :=
  (λ k, draws k * sig + mu) <$> seq 0 n.

(** The imputed data: reading [cs] from left to right, each boundary
    entry takes the next value of [v], every other entry stays. *)
Fixpoint fill (cs v : list Qc) : list Qc :=
  match cs with
  | [] => []
  | x :: cs' =>
      if decide (x = truncation_point) then
        match v with
        | z :: v' => z :: fill cs' v'
        | [] => x :: fill cs' []
        end
      else x :: fill cs' v
  end.

(** The arithmetic mean and the population variance of a sample. *)
Definition mean (a : list Qc) : Qc := np_sum a / Qc_of_nat (length a).

Definition Var (a : list Qc) : Qc :=
  np_sum ((λ x, (x - mean a) * (x - mean a)) <$> a) / Qc_of_nat (length a).

(** ** Sample inputs *)

(** A target with one entry below, one above and one exactly at the
    boundary, held at reference [0]. *)
Definition sample_y : list Qc := [Qc_of_Z 1; Qc_of_Z 3; Qc_of_Z 2].

Definition sample_heap : gmap nat (list Qc) := {[ 0%nat := sample_y ]}.

(** A censored vector without boundary entries, held at reference [0]. *)
Definition sample_below : list Qc := [Qc_of_Z 1; Qc_of_Z 0].

Definition sample_heap_below : gmap nat (list Qc) := {[ 0%nat := sample_below ]}.

(** A random source whose standardised draws all equal [3], a value
    inside the support [[2, 40]] that the notebook passes. *)
Definition sample_draws : nat → Qc := λ _, Qc_of_Z 3.

(** A target with a single entry above the boundary. *)
Definition sample_heap_above : gmap nat (list Qc) := {[ 0%nat := [Qc_of_Z 3] ]}.

Definition sample_est : estimator :=
  {| predict := λ _, {| shape := [2%nat]; data := [Qc_of_Z 1; Qc_of_Z 3] |} |}.

Definition sample_X : ndarray :=
  {| shape := [2%nat; 1%nat]; data := [Qc_of_Z 0; Qc_of_Z 1] |}.

Definition sample_target : ndarray :=
  {| shape := [2%nat]; data := [Qc_of_Z 1; Qc_of_Z 2] |}.


Definition sample_trace : gmap string (list Qc) :=
  <["Normal_mu" := [Qc_of_Z 0; Qc_of_Z 1]]>
    {[ "Normal_sig" := [Qc_of_Z 1; Qc_of_Z 2] ]}.

Definition sample_rs : random_state :=
  {| randn := λ _ _, Qc_of_Z 1; ground_truth := λ _ _, Qc_of_Z 1 |}.

(** The heap after truncation of [sample_y]: the censored vector is
    held at reference [1]. *)
Definition sample_heap_trunc : gmap nat (list Qc) :=
  <[1%nat := [Qc_of_Z 1; Qc_of_Z 2; Qc_of_Z 2]]> sample_heap.




(** An estimator with three predictions for a target of two entries. *)
Definition sample_est_long : estimator :=
  {| predict := λ _, {| shape := [3%nat];
                        data := [Qc_of_Z 1; Qc_of_Z 2; Qc_of_Z 3] |} |}.

(** * Properties *)

(** Reading an array through allocations made at references that were
    unused: the references differ because one is bound and the other is not. *)
Ltac frame_lookup :=
  rewrite !lookup_insert_ne; [done|intros ->; congruence..].

(** ** Running heap computations *)

Section heap_runs.
Implicit Types (h : gmap nat (list Qc)) (r : ref) (d : list Qc).

Lemma bind_run {A B} (m : M A) (f : A → M B) h x h' :
  m h = Some (x, h') → (m ≫= f) h = f x h'.
Proof. intros Hm. unfold mbind, M_bind, bind. by rewrite Hm. Qed.

Lemma load_run h r d : h !! r = Some d → load r h = Some (d, h).
Proof. intros Hr. unfold load. by rewrite Hr. Qed.

Lemma alloc_run h d :
  ∃ r, alloc d h = Some (r, <[r := d]> h) ∧ h !! r = None.
Proof.
  exists (fresh (dom h)). split; [done|].
  apply not_elem_of_dom, is_fresh.
Qed.

Lemma store_run h r d d' :
  h !! r = Some d → store r d' h = Some (tt, <[r := d']> h).
Proof. intros Hr. unfold store. by rewrite Hr. Qed.

Lemma data_trunc_run h y ys :
  h !! y = Some ys →
  ∃ c r, data_trunc y h = Some (r, <[r := censor ys]> (<[c := censor ys]> h))
         ∧ h !! c = None ∧ h !! r = None ∧ c ≠ r.
Proof.
  intros Hy. unfold data_trunc, np_clip, np_concatenate.
  destruct (alloc_run h (censor ys)) as (c & Hc & Hfc).
  destruct (alloc_run (<[c := censor ys]> h) (censor ys)) as (r & Hr & Hfr).
  exists c, r.
  apply lookup_insert_None in Hfr as [Hfr Hne].
  split_and!; [|done..].
  erewrite bind_run; last first.
  { erewrite bind_run; [exact Hc|by apply load_run]. }
  erewrite bind_run; last first.
  { simpl. erewrite bind_run; [|apply load_run, lookup_insert_eq]. done. }
  simpl. rewrite app_nil_r. exact Hr.
Qed.
End heap_runs.

(** ** The array primitives *)

Section primitives.
Implicit Types (x y z : Qc) (cs ys v : list Qc) (i k n : nat).

Lemma minimum_le x y : Np.minimum x y ≤ y.
Proof.
  unfold Np.minimum. case_bool_decide as H.
  - by apply Qclt_le_weak.
  - apply Qcle_refl.
Qed.

Lemma minimum_min x y : Np.minimum x y = Qc_min x y.
Proof.
  unfold Np.minimum, Qc_min. case_bool_decide as H; case_decide as H'; try done.
  - destruct H'. by apply Qclt_le_weak.
  - apply Qcnot_lt_le in H. by apply Qcle_antisym.
Qed.

Lemma minimum_id x y : x ≤ y → Np.minimum x y = x.
Proof. intros H. rewrite minimum_min. unfold Qc_min. by case_decide. Qed.

Lemma minimum_eq_iff x y : Np.minimum x y = y ↔ y ≤ x.
Proof.
  unfold Np.minimum. case_bool_decide as H; split.
  - intros ->. by destruct (Qclt_not_eq y y).
  - intros H'. by apply Qcle_not_lt in H'.
  - intros _. by apply Qcnot_lt_le.
  - done.
Qed.

Lemma censor_length ys : length (censor ys) = length ys.
Proof. unfold censor, Np.clip_max. apply length_fmap. Qed.

Lemma censor_lookup ys i :
  censor ys !! i = (λ x, Np.minimum x truncation_point) <$> ys !! i.
Proof. unfold censor, Np.clip_max. apply list_lookup_fmap. Qed.

Lemma censor_bounded ys : Forall (λ x, x ≤ truncation_point) (censor ys).
Proof.
  unfold censor, Np.clip_max. apply Forall_fmap, Forall_true.
  intros x. apply minimum_le.
Qed.

Lemma max_bounded cs b m :
  Forall (λ x, x ≤ b) cs → Np.max cs = Some m → m ≤ b.
Proof.
  destruct cs as [|x cs]; [done|]. simpl. intros Hall [= <-].
  apply Forall_cons in Hall as [Hx Hall]. revert x Hx.
  induction Hall as [|y cs Hy _ IH]; intros x Hx; simpl; [done|].
  apply IH. by case_bool_decide.
Qed.

(** Counting the selected entries. *)
Lemma select_equal_length cs :
  length (Np.select cs (Np.equal cs truncation_point)) = count_boundary cs.
Proof.
  unfold count_boundary.
  induction cs as [|x cs IH]; [done|]. simpl.
  rewrite filter_cons. case_bool_decide; case_decide; simpl; try done.
  by rewrite IH.
Qed.

Lemma nonzero_from_length cs i :
  length (Np.nonzero_from i (Np.equal cs truncation_point)) = count_boundary cs.
Proof.
  unfold count_boundary.
  revert i. induction cs as [|x cs IH]; intros i; [done|]. simpl.
  rewrite filter_cons. case_bool_decide; case_decide; simpl; try done.
  by rewrite IH.
Qed.

Lemma elem_of_nonzero_from cs i j :
  j ∈ Np.nonzero_from i (Np.equal cs truncation_point)
  ↔ (i ≤ j)%nat ∧ cs !! (j - i)%nat = Some truncation_point.
Proof.
  revert i. induction cs as [|x cs IH]; intros i; simpl.
  - split; [by intros ?%elem_of_nil|by intros [_ ?]].
  - assert (Hstep : (S i ≤ j)%nat ∧ cs !! (j - S i)%nat = Some truncation_point
                    ↔ (i < j)%nat ∧ (x :: cs) !! (j - i)%nat = Some truncation_point).
    { split; intros [Hle Hl]; (split; [lia|]).
      - replace (j - i)%nat with (S (j - S i)) by lia. done.
      - replace (j - i)%nat with (S (j - S i)) in Hl by lia. done. }
    case_bool_decide as Hx.
    + rewrite elem_of_cons, IH, Hstep. split.
      * intros [->|[Hlt Hl]]; [|split; [lia|done]].
        split; [lia|]. rewrite Nat.sub_diag. simpl. by rewrite Hx.
      * intros [Hle Hl]. destruct (decide (j = i)) as [->|Hne]; [by left|].
        right. split; [lia|done].
    + rewrite IH, Hstep. split.
      * intros [Hlt Hl]. split; [lia|done].
      * intros [Hle Hl]. split; [|done].
        destruct (decide (j = i)) as [->|Hne]; [|lia].
        rewrite Nat.sub_diag in Hl. simpl in Hl. by injection Hl.
Qed.

Lemma elem_of_where cs j :
  j ∈ Np.where_ (Np.equal cs truncation_point) ↔ cs !! j = Some truncation_point.
Proof.
  unfold Np.where_. rewrite elem_of_nonzero_from, Nat.sub_0_r.
  split; [by intros [_ ?]|]. intros ?. split; [lia|done].
Qed.

Lemma nonzero_from_lower cs i :
  Forall (λ j, (i ≤ j)%nat) (Np.nonzero_from i (Np.equal cs truncation_point)).
Proof.
  apply Forall_forall. intros j Hj. by apply elem_of_nonzero_from in Hj as [? _].
Qed.

Lemma nonzero_from_NoDup cs i :
  NoDup (Np.nonzero_from i (Np.equal cs truncation_point)).
Proof.
  revert i. induction cs as [|x cs IH]; intros i; simpl; [constructor|].
  case_bool_decide; [|apply IH]. constructor; [|apply IH].
  intros Hin. apply elem_of_nonzero_from in Hin as [? _]. lia.
Qed.
End primitives.

(** ** Scattering the drawn values *)

Section scatter.
Implicit Types (x y z : Qc) (cs pre v : list Qc) (i k n : nat).

Lemma fill_nil cs : fill cs [] = cs.
Proof.
  induction cs as [|x cs IH]; [done|]. simpl.
  case_decide; by rewrite IH.
Qed.

Lemma fill_length cs v : length (fill cs v) = length cs.
Proof.
  revert v. induction cs as [|x cs IH]; intros v; [done|]. simpl.
  case_decide; [destruct v|]; simpl; by rewrite IH.
Qed.

Lemma fill_no_boundary cs v : count_boundary cs = 0%nat → fill cs v = cs.
Proof.
  unfold count_boundary. revert v.
  induction cs as [|x cs IH]; intros v; [done|]. simpl.
  rewrite filter_cons. case_decide; [done|]. intros Hcs. by rewrite IH.
Qed.

(** An entry that is not the boundary keeps its value. *)
Lemma fill_lookup_other cs v i x :
  cs !! i = Some x → x ≠ truncation_point → fill cs v !! i = Some x.
Proof.
  revert v i. induction cs as [|c cs IH]; intros v i; [done|].
  destruct i as [|i]; simpl.
  - intros [= ->] Hx. by rewrite decide_False.
  - intros Hi Hx. case_decide; [destruct v|]; simpl; by apply IH.
Qed.

(** The [k]-th boundary entry takes the [k]-th drawn value. *)
Lemma fill_lookup_boundary cs v i k j z :
  length v = count_boundary cs →
  Np.nonzero_from i (Np.equal cs truncation_point) !! k = Some j →
  v !! k = Some z →
  fill cs v !! (j - i)%nat = Some z.
Proof.
  unfold count_boundary.
  revert v i k. induction cs as [|c cs IH]; intros v i k; simpl; [done|].
  rewrite filter_cons. case_bool_decide as Hc; case_decide; try done.
  - destruct v as [|w v]; [done|]. simpl. intros [= Hlen].
    destruct k as [|k]; simpl.
    + intros [= <-] [= <-]. by rewrite Nat.sub_diag.
    + intros Hj Hz.
      assert (S i ≤ j)%nat as Hle.
      { eapply (Forall_lookup_1 _ _ _ _ (nonzero_from_lower cs (S i))), Hj. }
      replace (j - i)%nat with (S (j - S i)) by lia. simpl. by eapply IH.
  - intros Hlen Hj Hz.
    assert (S i ≤ j)%nat as Hle.
    { eapply (Forall_lookup_1 _ _ _ _ (nonzero_from_lower cs (S i))), Hj. }
    replace (j - i)%nat with (S (j - S i)) by lia. simpl. by eapply IH.
Qed.

Lemma put_loop_fill cs pre vpre v :
  length v = count_boundary cs →
  Np.put_loop (pre ++ cs) (length vpre)
    (Np.nonzero_from (length pre) (Np.equal cs truncation_point)) (vpre ++ v)
  = Some (pre ++ fill cs v).
Proof.
  unfold count_boundary.
  revert pre vpre v. induction cs as [|x cs IH]; intros pre vpre v; [done|].
  simpl. rewrite filter_cons.
  case_bool_decide as Hx; case_decide; try done.
  - destruct v as [|z v]; [done|]. simpl. intros [= Hlen].
    rewrite decide_True by (rewrite length_app; simpl; lia).
    rewrite Nat.mod_small by (rewrite length_app; simpl; lia).
    rewrite lookup_app_r, Nat.sub_diag by lia. simpl.
    rewrite insert_app_r_alt, Nat.sub_diag by lia. simpl.
    specialize (IH (pre ++ [z]) (vpre ++ [z]) v Hlen).
    rewrite !length_app in IH. simpl in IH.
    rewrite !Nat.add_1_r, <-!(assoc_L (++)) in IH. simpl in IH.
    exact IH.
  - intros Hlen.
    specialize (IH (pre ++ [x]) vpre v Hlen).
    rewrite !length_app in IH. simpl in IH.
    rewrite !Nat.add_1_r, <-!(assoc_L (++)) in IH. simpl in IH.
    exact IH.
Qed.

(** [np.put] at the indices of the boundary entries, with as many
    values as there are such entries, computes [fill]. *)
Lemma put_where_fill cs v :
  length v = count_boundary cs →
  Np.put cs (Np.where_ (Np.equal cs truncation_point)) v = Some (fill cs v).
Proof.
  intros Hlen. unfold Np.put, Np.where_. destruct v as [|z v].
  - by rewrite fill_nil.
  - apply (put_loop_fill cs [] [] (z :: v) Hlen).
Qed.
End scatter.

(** ** The imputation cells on the heap *)

Section cells.
Implicit Types (h : gmap nat (list Qc)) (r dt iv : ref) (cs ys v : list Qc).

Lemma rvs_drawn mu sig n draws :
  0 ≤ sig →
  Truncnorm.rvs truncation_point (truncation_point * Qc_of_Z 20) mu sig n draws
  = Some (drawn mu sig n draws).
Proof.
  intros Hsig. unfold Truncnorm.rvs.
  assert (Truncnorm.argcheck truncation_point (truncation_point * Qc_of_Z 20) = true)
    as -> by (by vm_compute).
  by rewrite bool_decide_eq_true_2.
Qed.

Lemma drawn_length mu sig n draws : length (drawn mu sig n draws) = n.
Proof. unfold drawn. by rewrite length_fmap, length_seq. Qed.

Lemma imputed_values_run h dt cs mu sig draws :
  h !! dt = Some cs → 0 ≤ sig →
  ∃ s r,
    imputed_values dt mu sig draws h
    = Some (r, <[r := drawn mu sig (count_boundary cs) draws]>
                 (<[s := Np.select cs (Np.equal cs truncation_point)]> h))
    ∧ h !! s = None ∧ h !! r = None ∧ s ≠ r.
Proof.
  intros Hdt Hsig. unfold imputed_values.
  set (sel := Np.select cs (Np.equal cs truncation_point)).
  destruct (alloc_run h sel) as (s & Hs & Hfs).
  destruct (alloc_run (<[s := sel]> h) (drawn mu sig (count_boundary cs) draws))
    as (r & Hr & Hfr).
  apply lookup_insert_None in Hfr as [Hfr Hne].
  exists s, r. split_and!; [|done..].
  erewrite bind_run; last first.
  { unfold np_equal. erewrite bind_run; [|by apply load_run]. done. }
  erewrite bind_run; last first.
  { unfold np_getitem_mask. erewrite bind_run; [|by apply load_run].
    unfold Np.getitem_mask.
    rewrite decide_True by (unfold Np.equal; apply length_fmap).
    simpl. erewrite bind_run; [|done]. exact Hs. }
  erewrite bind_run; last first.
  { unfold np_len. erewrite bind_run; [|apply load_run, lookup_insert_eq]. done. }
  unfold truncnorm_rvs. rewrite rvs_drawn by done. simpl.
  erewrite bind_run; [|done].
  unfold sel. rewrite select_equal_length. exact Hr.
Qed.

Lemma data_imp_run h dt iv cs v :
  h !! dt = Some cs → h !! iv = Some v → length v = count_boundary cs →
  ∃ r,
    data_imp dt iv h
    = Some ((Np.where_ (Np.equal cs truncation_point), r), <[r := fill cs v]> h)
    ∧ h !! r = None.
Proof.
  intros Hdt Hiv Hlen. unfold data_imp.
  destruct (alloc_run h cs) as (r & Hr & Hfr).
  exists r. split; [|done].
  assert (r ≠ iv) as Hne by congruence.
  erewrite bind_run; last first.
  { unfold np_equal. erewrite bind_run; [|by apply load_run]. done. }
  erewrite bind_run; last first.
  { unfold np_copy. erewrite bind_run; [|by apply load_run]. exact Hr. }
  erewrite bind_run; last first.
  { unfold np_put. erewrite bind_run; [|apply load_run, lookup_insert_eq].
    erewrite bind_run; last first.
    { apply load_run. by rewrite lookup_insert_ne. }
    rewrite put_where_fill by done. simpl.
    erewrite bind_run; [|done].
    eapply store_run, lookup_insert_eq. }
  by rewrite insert_insert_eq.
Qed.

(** The outcome of the imputation step on any heap that holds the
    censored vector.  [h'] is the final heap; the two new arrays are
    distinct objects that did not exist before, and every array of the
    initial heap is still there with its data. *)
Lemma imputation_run h dt cs mu sig draws :
  h !! dt = Some cs → 0 ≤ sig →
  ∃ iv di h',
    imputation dt mu sig draws h
    = Some ((iv, Np.where_ (Np.equal cs truncation_point), di), h')
    ∧ h' !! iv = Some (drawn mu sig (count_boundary cs) draws)
    ∧ h' !! di = Some (fill cs (drawn mu sig (count_boundary cs) draws))
    ∧ (∀ r d, h !! r = Some d → h' !! r = Some d)
    ∧ h !! iv = None ∧ h !! di = None ∧ iv ≠ di.
Proof.
  intros Hdt Hsig. unfold imputation.
  destruct (imputed_values_run h dt cs mu sig draws Hdt Hsig)
    as (s & iv & Hrun2 & Hfs & Hfiv & Hsiv).
  set (v := drawn mu sig (count_boundary cs) draws) in *.
  set (h2 := <[iv := v]> (<[s := Np.select cs (Np.equal cs truncation_point)]> h)) in *.
  assert (h2 !! iv = Some v) as Hiv by apply lookup_insert_eq.
  assert (h2 !! dt = Some cs) as Hdt2.
  { unfold h2. frame_lookup. }
  destruct (data_imp_run h2 dt iv cs v Hdt2 Hiv) as (di & Hrun3 & Hfdi).
  { unfold v. apply drawn_length. }
  assert (iv ≠ di) as Hivdi by congruence.
  assert (h !! di = None) as Hdi0.
  { unfold h2 in Hfdi. by repeat (apply lookup_insert_None in Hfdi as [Hfdi _]). }
  exists iv, di, (<[di := fill cs v]> h2).
  split_and!; try done.
  - erewrite bind_run; [|exact Hrun2].
    erewrite bind_run; [|exact Hrun3]. done.
  - by rewrite lookup_insert_ne.
  - apply lookup_insert_eq.
  - intros r d Hr. unfold h2. frame_lookup.
Qed.

(** Truncation and imputation from the target vector. *)
Lemma impute_run h y ys mu sig draws :
  h !! y = Some ys → 0 ≤ sig →
  ∃ dt iv di h',
    impute y mu sig draws h
    = Some ((dt, iv, Np.where_ (Np.equal (censor ys) truncation_point), di), h')
    ∧ h' !! dt = Some (censor ys)
    ∧ h' !! iv = Some (drawn mu sig (count_boundary (censor ys)) draws)
    ∧ h' !! di = Some (fill (censor ys)
                         (drawn mu sig (count_boundary (censor ys)) draws))
    ∧ (∀ r d, h !! r = Some d → h' !! r = Some d)
    ∧ h !! dt = None ∧ h !! iv = None ∧ h !! di = None
    ∧ dt ≠ iv ∧ dt ≠ di ∧ iv ≠ di.
Proof.
  intros Hy Hsig. unfold impute.
  destruct (data_trunc_run h y ys Hy) as (c & dt & Hrun1 & Hfc & Hfdt & Hcdt).
  set (h1 := <[dt := censor ys]> (<[c := censor ys]> h)) in *.
  assert (h1 !! dt = Some (censor ys)) as Hdt by apply lookup_insert_eq.
  destruct (imputation_run h1 dt (censor ys) mu sig draws Hdt Hsig)
    as (iv & di & h' & Hrun & Hiv & Hdi & Hframe & Hfiv & Hfdi & Hne).
  exists dt, iv, di, h'.
  assert (∀ r, h1 !! r = None → h !! r = None) as Hback.
  { intros r Hr. unfold h1 in Hr.
    by repeat (apply lookup_insert_None in Hr as [Hr _]). }
  split_and!; try done; try (by apply Hback); try congruence.
  - erewrite bind_run; [|exact Hrun1].
    erewrite bind_run; [|exact Hrun]. done.
  - by apply Hframe.
  - intros r d Hr. apply Hframe. unfold h1. frame_lookup.
Qed.
End cells.

(** ** Means and variances *)

Section scoring.
Implicit Types (x y c : Qc) (a b r : list Qc) (n : nat).

Lemma Qc_of_nat_nonzero n : n ≠ 0%nat → Qc_of_nat n ≠ 0.
Proof.
  intros Hn H. unfold Qc_of_nat in H.
  rewrite <-Z2Qc_inj_0 in H. apply Z2Qc_inj in H. lia.
Qed.

Lemma Qc_of_nat_pos n : n ≠ 0%nat → 0 < Qc_of_nat n.
Proof.
  intros Hn. unfold Qc_of_nat. rewrite <-Z2Qc_inj_0.
  apply (proj1 (Z2Qc_inj_lt 0 (Z.of_nat n))). lia.
Qed.

Lemma Qc_of_nat_S n : Qc_of_nat (S n) = 1 + Qc_of_nat n.
Proof.
  unfold Qc_of_nat. rewrite Nat2Z.inj_succ, <-Z.add_1_l.
  by rewrite Z2Qc_inj_add, Z2Qc_inj_1.
Qed.

Lemma length_nonzero a : a ≠ [] → length a ≠ 0%nat.
Proof. by destruct a. Qed.

Lemma fdiv_finite p q : q ≠ 0 → fdiv (Fin p) (Fin q) = Fin (p / q).
Proof. intros Hq. unfold fdiv. by rewrite bool_decide_eq_false_2. Qed.

Lemma np_mean_mean a : a ≠ [] → np_mean a = Fin (mean a).
Proof.
  intros Ha. unfold np_mean, mean.
  apply fdiv_finite, Qc_of_nat_nonzero, length_nonzero, Ha.
Qed.

Lemma np_mean_nil : np_mean [] = NaN.
Proof. by vm_compute. Qed.

Lemma np_var_Var a : a ≠ [] → np_var a = Fin (Var a).
Proof.
  intros Ha. unfold np_var, Var. rewrite np_mean_mean by done.
  apply fdiv_finite, Qc_of_nat_nonzero, length_nonzero, Ha.
Qed.

Lemma np_var_nil : np_var [] = NaN.
Proof. by vm_compute. Qed.


Lemma np_sum_replicate n c : np_sum (replicate n c) = Qc_of_nat n * c.
Proof.
  induction n as [|n IH]; simpl.
  - change (Qc_of_nat 0) with (Qc_of_Z 0). rewrite Z2Qc_inj_0. ring.
  - rewrite IH, Qc_of_nat_S. ring.
Qed.

Lemma mean_replicate n c : n ≠ 0%nat → mean (replicate n c) = c.
Proof.
  intros Hn. unfold mean. rewrite np_sum_replicate, length_replicate.
  rewrite Qcmult_comm. apply Qcdiv_mult_l, Qc_of_nat_nonzero, Hn.
Qed.

(** A constant vector has variance zero. *)
Lemma Var_replicate n c : Var (replicate n c) = 0.
Proof.
  destruct (decide (n = 0%nat)) as [->|Hn]; [by apply Qc_is_canon|].
  unfold Var. rewrite mean_replicate by done.
  rewrite fmap_replicate, np_sum_replicate.
  unfold Qcdiv. ring.
Qed.

Lemma square_nonneg x : 0 ≤ x * x.
Proof.
  destruct (Qclt_le_dec x 0) as [Hneg|Hpos].
  - replace (x * x) with ((- x) * (- x)) by ring.
    assert (0 ≤ - x).
    { apply Qclt_le_weak in Hneg. apply Qcopp_le_compat in Hneg.
      by replace (- 0) with 0 in Hneg by ring. }
    by apply Qcmult_nonneg_nonneg.
  - by apply Qcmult_nonneg_nonneg.
Qed.

Lemma np_sum_nonneg a : Forall (λ x, 0 ≤ x) a → 0 ≤ np_sum a.
Proof.
  induction 1 as [|x a Hx _ IH]; simpl; [apply Qcle_refl|].
  by apply Qcplus_nonneg_nonneg.
Qed.

(** A variance is never negative. *)
Lemma Var_nonneg a : 0 ≤ Var a.
Proof.
  unfold Var. set (m := mean a).
  assert (0 ≤ np_sum ((λ x, (x - m) * (x - m)) <$> a)) as Hsum.
  { apply np_sum_nonneg, Forall_fmap, Forall_true. intros x. apply square_nonneg. }
  destruct a as [|x a]; [by vm_compute|].
  unfold Qcdiv. apply Qcmult_nonneg_nonneg; [done|].
  apply Qclt_le_weak, Qcinv_pos, Qc_of_nat_pos. done.
Qed.

(** A vector of non-zero variance has at least two entries. *)
Lemma Var_nonzero_length a : Var a ≠ 0 → (2 ≤ length a)%nat.
Proof.
  intros Hvar. destruct a as [|c [|c' a]]; simpl; [| |lia]; destruct Hvar.
  - apply (Var_replicate 0 0).
  - apply (Var_replicate 1 c).
Qed.

(** The residual of a defined subtraction from a vector of at least two
    entries is not empty. *)
Lemma np_subtract_nonempty a b r :
  np_subtract a b = Some r → (2 ≤ length b)%nat → r ≠ [].
Proof.
  unfold np_subtract. intros Hsub Hb. case_decide as Hlen.
  - injection Hsub as <-. intros Hr.
    apply (f_equal length) in Hr. rewrite length_zip_with in Hr. simpl in Hr. lia.
  - destruct a as [|x [|x' a]], b as [|y [|y' b]]; simplify_eq/=; try done; lia.
Qed.
End scoring.

(** ** Censoring *)

Section censoring.
Implicit Types (h : gmap nat (list Qc)) (y : ref) (ys cs : list Qc).

Lemma censor_min ys : censor ys = (λ x, Qc_min x truncation_point) <$> ys.
Proof.
  unfold censor, Np.clip_max. apply list_fmap_ext. intros _ x _. apply minimum_min.
Qed.

Lemma censor_lookup_below ys i x :
  ys !! i = Some x → x ≤ truncation_point → censor ys !! i = Some x.
Proof.
  intros Hi Hx. rewrite censor_lookup, Hi. simpl. by rewrite minimum_id.
Qed.

Lemma censor_lookup_above ys i x :
  ys !! i = Some x → truncation_point ≤ x → censor ys !! i = Some truncation_point.
Proof.
  intros Hi Hx. rewrite censor_lookup, Hi. simpl. f_equal. by apply minimum_eq_iff.
Qed.

(** Below the bound, being at or above the boundary is being equal to it. *)
Lemma count_at_or_above_bounded cs :
  Forall (λ x, x ≤ truncation_point) cs →
  count_at_or_above cs = count_boundary cs.
Proof.
  unfold count_at_or_above, count_boundary.
  induction 1 as [|x cs Hx _ IH]; [done|].
  rewrite !filter_cons.
  destruct (decide (truncation_point ≤ x)) as [Hge|Hlt],
           (decide (x = truncation_point)) as [Heq|Hne]; simpl.
  - by rewrite IH.
  - destruct Hne. by apply Qcle_antisym.
  - destruct Hlt. rewrite Heq. apply Qcle_refl.
  - done.
Qed.

(** The entries of the target at or above the boundary are those that
    equal the boundary after clipping. *)
Lemma count_boundary_censor ys :
  count_boundary (censor ys) = count_at_or_above ys.
Proof.
  unfold count_at_or_above, count_boundary, censor, Np.clip_max.
  induction ys as [|x ys IH]; [done|].
  rewrite fmap_cons, !filter_cons.
  destruct (decide (truncation_point ≤ x)) as [Hge|Hlt],
           (decide (Np.minimum x truncation_point = truncation_point)) as [Heq|Hne];
    simpl.
  - by rewrite IH.
  - destruct Hne. by apply minimum_eq_iff.
  - destruct Hlt. by apply minimum_eq_iff.
  - done.
Qed.

(** C1. Censoring replaces every entry by [min(entry, boundary)].  The
    censored vector is a function of the target alone (no random input);
    each of its entries, and so its maximum, is at most the boundary; an
    entry at or below the boundary is unchanged. *)
Theorem censoring_clips h y ys :
  h !! y = Some ys →
  ∃ dt h' cs,
    data_trunc y h = Some (dt, h')
    ∧ h' !! dt = Some cs
    ∧ cs = (λ x, Qc_min x truncation_point) <$> ys
    ∧ Forall (λ x, x ≤ truncation_point) cs
    ∧ (∀ m, Np.max cs = Some m → m ≤ truncation_point)
    ∧ (∀ i x, ys !! i = Some x → x ≤ truncation_point → cs !! i = Some x).
Proof.
  intros Hy.
  destruct (data_trunc_run h y ys Hy) as (c & dt & Hrun & _ & _ & _).
  eexists dt, _, (censor ys). split_and!.
  - exact Hrun.
  - apply lookup_insert_eq.
  - apply censor_min.
  - apply censor_bounded.
  - intros m. apply max_bounded, censor_bounded.
  - apply censor_lookup_below.
Qed.

Lemma censoring_clips_witness :
  sample_heap !! 0%nat = Some sample_y
  ∧ ∃ dt h' cs,
      data_trunc 0%nat sample_heap = Some (dt, h')
      ∧ h' !! dt = Some cs
      ∧ cs = (λ x, Qc_min x truncation_point) <$> sample_y
      ∧ Forall (λ x, x ≤ truncation_point) cs
      ∧ (∀ m, Np.max cs = Some m → m ≤ truncation_point)
      ∧ (∀ i x, sample_y !! i = Some x → x ≤ truncation_point → cs !! i = Some x).
Proof.
  split; [apply lookup_singleton_eq|].
  apply (censoring_clips sample_heap 0%nat sample_y), lookup_singleton_eq.
Defined.
End censoring.

(** ** Imputation *)

Section imputation.
Implicit Types (h : gmap nat (list Qc)) (y dt : ref) (ys cs v : list Qc).

Lemma count_boundary_none cs :
  Forall (λ x, x ≠ truncation_point) cs → count_boundary cs = 0%nat.
Proof.
  unfold count_boundary. induction 1 as [|x cs Hx _ IH]; [done|].
  rewrite filter_cons. by rewrite decide_False.
Qed.

Lemma where_none cs :
  count_boundary cs = 0%nat → Np.where_ (Np.equal cs truncation_point) = [].
Proof.
  intros Hc. apply length_zero_iff_nil.
  unfold Np.where_. by rewrite nonzero_from_length.
Qed.

(** What the draw guarantees: with [a] and [b] bounding the standardised
    variate, a drawn value lies between [mu + a * sig] and [mu + b * sig]. *)
Lemma drawn_support mu sig n draws k z :
  0 ≤ sig →
  Truncnorm.in_support truncation_point (truncation_point * Qc_of_Z 20) (draws k) →
  drawn mu sig n draws !! k = Some z →
  truncation_point * sig + mu ≤ z
  ∧ z ≤ truncation_point * Qc_of_Z 20 * sig + mu.
Proof.
  intros Hsig [Hlo Hhi]. unfold drawn. rewrite list_lookup_fmap.
  intros Hz. apply fmap_Some in Hz as (k' & Hk & ->).
  apply lookup_seq in Hk as [-> _]. simpl.
  split; apply Qcplus_le_mono_r; by apply Qcmult_le_mono_nonneg_r.
Qed.

(** C3. Imputation writes into a copy.  [data_imp] is a new array object;
    each entry of the censored vector strictly below the boundary is the
    same in the imputed vector; the censored vector, the target vector and
    every other array of the heap keep their data. *)
Theorem imputation_writes_copy h y dt ys cs mu sig draws :
  h !! y = Some ys → h !! dt = Some cs → 0 ≤ sig →
  ∃ iv idxs di h' imp,
    imputation dt mu sig draws h = Some ((iv, idxs, di), h')
    ∧ h !! di = None ∧ di ≠ dt ∧ di ≠ y
    ∧ h' !! di = Some imp
    ∧ length imp = length cs
    ∧ (∀ i x, cs !! i = Some x → x < truncation_point → imp !! i = Some x)
    ∧ h' !! dt = Some cs
    ∧ h' !! y = Some ys
    ∧ (∀ r d, h !! r = Some d → h' !! r = Some d).
Proof.
  intros Hy Hdt Hsig.
  destruct (imputation_run h dt cs mu sig draws Hdt Hsig)
    as (iv & di & h' & Hrun & Hiv & Hdi & Hframe & Hfiv & Hfdi & Hne).
  eexists iv, _, di, h', _. split_and!; try done.
  - congruence.
  - congruence.
  - apply fill_length.
  - intros i x Hi Hx. apply fill_lookup_other; [done|]. by apply Qclt_not_eq.
  - by apply Hframe.
  - by apply Hframe.
Qed.

Lemma imputation_writes_copy_witness :
  ∃ iv idxs di h' imp,
    imputation 1%nat 0 1 sample_draws sample_heap_trunc = Some ((iv, idxs, di), h')
    ∧ sample_heap_trunc !! di = None ∧ di ≠ 1%nat ∧ di ≠ 0%nat
    ∧ h' !! di = Some imp
    ∧ length imp = 3%nat
    ∧ (∀ i x, [Qc_of_Z 1; Qc_of_Z 2; Qc_of_Z 2] !! i = Some x →
              x < truncation_point → imp !! i = Some x)
    ∧ h' !! 1%nat = Some [Qc_of_Z 1; Qc_of_Z 2; Qc_of_Z 2]
    ∧ h' !! 0%nat = Some sample_y
    ∧ (∀ r d, sample_heap_trunc !! r = Some d → h' !! r = Some d).
Proof.
  apply (imputation_writes_copy sample_heap_trunc 0%nat 1%nat sample_y
           [Qc_of_Z 1; Qc_of_Z 2; Qc_of_Z 2] 0 1 sample_draws).
  - unfold sample_heap_trunc. rewrite lookup_insert_ne by done.
    apply lookup_singleton_eq.
  - apply lookup_insert_eq.
  - by vm_compute.
Defined.

(** C4. The number of drawn values is the number of entries of the
    censored vector at or above the boundary, which are the entries equal
    to it; the index array lists these entries once each, and the [k]-th
    of them receives the [k]-th drawn value. *)
Theorem one_draw_per_boundary_entry h y ys mu sig draws :
  h !! y = Some ys → 0 ≤ sig →
  ∃ dt iv idxs di h' cs v imp,
    impute y mu sig draws h = Some ((dt, iv, idxs, di), h')
    ∧ h' !! dt = Some cs ∧ h' !! iv = Some v ∧ h' !! di = Some imp
    ∧ length v = count_at_or_above cs
    ∧ length v = count_boundary cs
    ∧ length v = count_at_or_above ys
    ∧ length idxs = length v
    ∧ NoDup idxs
    ∧ (∀ j, j ∈ idxs ↔ ∃ x, cs !! j = Some x ∧ truncation_point ≤ x)
    ∧ (∀ k j, idxs !! k = Some j → ∃ z, v !! k = Some z ∧ imp !! j = Some z).
Proof.
  intros Hy Hsig.
  destruct (impute_run h y ys mu sig draws Hy Hsig)
    as (dt & iv & di & h' & Hrun & Hdt & Hiv & Hdi & _).
  set (cs := censor ys) in *.
  set (v := drawn mu sig (count_boundary cs) draws) in *.
  assert (length v = count_boundary cs) as Hlen by apply drawn_length.
  eexists dt, iv, _, di, h', cs, v, _. split_and!; try done.
  - rewrite Hlen. symmetry. apply count_at_or_above_bounded, censor_bounded.
  - rewrite Hlen. apply count_boundary_censor.
  - unfold Np.where_. by rewrite nonzero_from_length.
  - apply nonzero_from_NoDup.
  - intros j. rewrite elem_of_where. split.
    + intros Hj. exists truncation_point. split; [done|apply Qcle_refl].
    + intros (x & Hj & Hx). rewrite Hj. f_equal.
      apply Qcle_antisym; [|done].
      by apply (Forall_lookup_1 _ _ _ _ (censor_bounded ys) Hj).
  - intros k j Hk.
    assert (k < length v)%nat as Hkv.
    { apply lookup_lt_Some in Hk. unfold Np.where_ in Hk.
      rewrite nonzero_from_length in Hk. lia. }
    apply lookup_lt_is_Some_2 in Hkv as [z Hz]. exists z. split; [done|].
    rewrite <-(Nat.sub_0_r j). by eapply fill_lookup_boundary.
Qed.

Lemma one_draw_per_boundary_entry_witness :
  ∃ dt iv idxs di h' cs v imp,
    impute 0%nat 0 1 sample_draws sample_heap = Some ((dt, iv, idxs, di), h')
    ∧ h' !! dt = Some cs ∧ h' !! iv = Some v ∧ h' !! di = Some imp
    ∧ length v = count_at_or_above cs
    ∧ length v = count_boundary cs
    ∧ length v = count_at_or_above sample_y
    ∧ length idxs = length v
    ∧ NoDup idxs
    ∧ (∀ j, j ∈ idxs ↔ ∃ x, cs !! j = Some x ∧ truncation_point ≤ x)
    ∧ (∀ k j, idxs !! k = Some j → ∃ z, v !! k = Some z ∧ imp !! j = Some z).
Proof.
  apply (one_draw_per_boundary_entry sample_heap 0%nat sample_y 0 1 sample_draws).
  - apply lookup_singleton_eq.
  - by vm_compute.
Defined.

(** C5. When no entry of the censored vector equals the boundary, nothing
    is drawn, the index array is empty, and the imputed vector has the
    data of the censored vector. *)
Theorem imputation_without_boundary_entries h dt cs mu sig draws :
  h !! dt = Some cs → 0 ≤ sig →
  Forall (λ x, x ≠ truncation_point) cs →
  ∃ iv di h',
    imputation dt mu sig draws h = Some ((iv, [], di), h')
    ∧ h' !! iv = Some []
    ∧ h' !! di = Some cs.
Proof.
  intros Hdt Hsig Hnone.
  apply count_boundary_none in Hnone.
  destruct (imputation_run h dt cs mu sig draws Hdt Hsig)
    as (iv & di & h' & Hrun & Hiv & Hdi & _).
  rewrite Hnone in Hiv, Hdi. rewrite where_none in Hrun by done.
  rewrite fill_no_boundary in Hdi by done.
  by exists iv, di, h'.
Qed.

Lemma imputation_without_boundary_entries_witness :
  ∃ iv di h',
    imputation 0%nat 0 1 sample_draws sample_heap_below = Some ((iv, [], di), h')
    ∧ h' !! iv = Some []
    ∧ h' !! di = Some sample_below.
Proof.
  apply (imputation_without_boundary_entries sample_heap_below 0%nat sample_below).
  - apply lookup_singleton_eq.
  - by vm_compute.
  - repeat constructor; by vm_compute.
Defined.

(** C9. The entries selected for replacement are exactly those equal to
    the boundary in the censored vector.  An entry of the target that is
    exactly the boundary is selected and overwritten by a draw although
    it was not clipped; an entry strictly below the boundary is never
    selected. *)
Theorem selection_by_equality h y ys mu sig draws :
  h !! y = Some ys → 0 ≤ sig →
  ∃ dt iv idxs di h' cs v imp,
    impute y mu sig draws h = Some ((dt, iv, idxs, di), h')
    ∧ h' !! dt = Some cs ∧ h' !! iv = Some v ∧ h' !! di = Some imp
    ∧ (∀ j, j ∈ idxs ↔ cs !! j = Some truncation_point)
    ∧ (∀ j, ys !! j = Some truncation_point →
            ∃ k z, idxs !! k = Some j ∧ v !! k = Some z ∧ imp !! j = Some z)
    ∧ (∀ j x, ys !! j = Some x → x < truncation_point →
              (j ∉ idxs) ∧ imp !! j = Some x).
Proof.
  intros Hy Hsig.
  destruct (impute_run h y ys mu sig draws Hy Hsig)
    as (dt & iv & di & h' & Hrun & Hdt & Hiv & Hdi & _).
  set (cs := censor ys) in *.
  set (v := drawn mu sig (count_boundary cs) draws) in *.
  assert (length v = count_boundary cs) as Hlen by apply drawn_length.
  eexists dt, iv, _, di, h', cs, v, _. split_and!; try done.
  - apply elem_of_where.
  - intros j Hj.
    assert (cs !! j = Some truncation_point) as Hc.
    { apply (censor_lookup_above ys j truncation_point); [done|apply Qcle_refl]. }
    apply elem_of_where, list_elem_of_lookup in Hc as [k Hk].
    assert (k < length v)%nat as Hkv.
    { apply lookup_lt_Some in Hk. unfold Np.where_ in Hk.
      rewrite nonzero_from_length in Hk. lia. }
    apply lookup_lt_is_Some_2 in Hkv as [z Hz]. exists k, z.
    split_and!; [done..|].
    rewrite <-(Nat.sub_0_r j). by eapply fill_lookup_boundary.
  - intros j x Hj Hx.
    assert (cs !! j = Some x) as Hc.
    { apply censor_lookup_below; [done|by apply Qclt_le_weak]. }
    split.
    + rewrite elem_of_where, Hc. intros [= ->]. by destruct (Qclt_not_eq _ _ Hx).
    + apply fill_lookup_other; [done|by apply Qclt_not_eq].
Qed.

Lemma selection_by_equality_witness :
  ∃ dt iv idxs di h' cs v imp,
    impute 0%nat 0 1 sample_draws sample_heap = Some ((dt, iv, idxs, di), h')
    ∧ h' !! dt = Some cs ∧ h' !! iv = Some v ∧ h' !! di = Some imp
    ∧ (∀ j, j ∈ idxs ↔ cs !! j = Some truncation_point)
    ∧ (∀ j, sample_y !! j = Some truncation_point →
            ∃ k z, idxs !! k = Some j ∧ v !! k = Some z ∧ imp !! j = Some z)
    ∧ (∀ j x, sample_y !! j = Some x → x < truncation_point →
              (j ∉ idxs) ∧ imp !! j = Some x).
Proof.
  apply (selection_by_equality sample_heap 0%nat sample_y 0 1 sample_draws).
  - apply lookup_singleton_eq.
  - by vm_compute.
Defined.
End imputation.

(** C2. The draws do not respect the boundary.  The notebook passes the
    boundary and twenty times the boundary as [a] and [b], which bound the
    standardised variate, not the returned value.  With location [0] and
    scale [1/2], the standardised draw [3] lies in [[2, 40]] and yields the
    replacement value [3/2], below the boundary [2]. *)
Theorem imputed_value_below_boundary :
  Truncnorm.in_support truncation_point (truncation_point * Qc_of_Z 20)
    (sample_draws 0%nat)
  ∧ ∃ dt iv idxs di h' z,
      impute 0%nat 0 (Qc_of_Z 1 / Qc_of_Z 2) sample_draws sample_heap_above
      = Some ((dt, iv, idxs, di), h')
      ∧ h' !! di = Some [z]
      ∧ z = Qc_of_Z 3 / Qc_of_Z 2
      ∧ z < truncation_point.
Proof.
  split; [split; by vm_compute|].
  assert (0 ≤ Qc_of_Z 1 / Qc_of_Z 2) as Hsig by (by vm_compute).
  destruct (impute_run sample_heap_above 0%nat [Qc_of_Z 3] 0
              (Qc_of_Z 1 / Qc_of_Z 2) sample_draws
              (lookup_singleton_eq _ _) Hsig)
    as (dt & iv & di & h' & Hrun & _ & _ & Hdi & _).
  assert (censor [Qc_of_Z 3] = [truncation_point]) as Hc.
  { reflexivity. }
  rewrite Hc in Hrun, Hdi.
  assert (count_boundary [truncation_point] = 1%nat) as Hn.
  { unfold count_boundary. by rewrite filter_cons, decide_True. }
  rewrite Hn in Hdi. simpl in Hdi.
  eexists dt, iv, _, di, h', _. split_and!; [exact Hrun|exact Hdi|..].
  - apply Qc_is_canon. by vm_compute.
  - by vm_compute.
Qed.

(** ** The score and the posterior estimate *)

Section score.
Implicit Types (est : estimator) (X y : ndarray) (r : list Qc).

(** C6. For a target of non-zero variance the score is
    [1 - Var(prediction - truth) / Var(truth)], where the prediction is
    the output of the estimator on the features and the difference [r]
    is the one NumPy computes; with one prediction per target entry it
    is the entrywise difference. *)
Theorem variance_explained_formula est X y r :
  np_subtract (ravel (predict est X)) (ravel y) = Some r →
  Var (ravel y) ≠ 0 →
  variance_explained est X y = Some (Fin (1 - Var r / Var (ravel y)))
  ∧ (length (ravel (predict est X)) = length (ravel y) →
     r = zip_with Qcminus (ravel (predict est X)) (ravel y)).
Proof.
  intros Hsub Hvar.
  assert (2 ≤ length (ravel y))%nat as Hlen by by apply Var_nonzero_length.
  assert (ravel y ≠ []) as Hy.
  { intros E. rewrite E in Hlen. simpl in Hlen. lia. }
  split.
  - unfold variance_explained. rewrite Hsub. simpl.
    rewrite (np_var_Var r) by (by eapply np_subtract_nonempty).
    rewrite (np_var_Var (ravel y)) by done.
    by rewrite fdiv_finite.
  - intros Heq. unfold np_subtract in Hsub.
    rewrite decide_True in Hsub by done. by injection Hsub.
Qed.

Lemma variance_explained_formula_witness :
  variance_explained sample_est sample_X sample_target
  = Some (Fin (1 - Var [Qc_of_Z 1 - Qc_of_Z 1; Qc_of_Z 3 - Qc_of_Z 2]
                   / Var (ravel sample_target)))
  ∧ (length (ravel (predict sample_est sample_X)) = length (ravel sample_target) →
     [Qc_of_Z 1 - Qc_of_Z 1; Qc_of_Z 3 - Qc_of_Z 2]
     = zip_with Qcminus (ravel (predict sample_est sample_X)) (ravel sample_target)).
Proof.
  apply (variance_explained_formula sample_est sample_X sample_target).
  - reflexivity.
  - intros H%Qceq_alt. by vm_compute in H.
Defined.

(** C7. The posterior estimate is the pair of arithmetic means of the
    location samples and of the scale samples of the trace (NaN for a
    variable without samples). *)
Theorem posterior_estimate_is_mean (trace1 : gmap string (list Qc)) mus sigs :
  trace1 !! "Normal_mu" = Some mus →
  trace1 !! "Normal_sig" = Some sigs →
  impute_mu trace1 = Some (match mus with [] => NaN | _ => Fin (mean mus) end)
  ∧ impute_sig trace1 = Some (match sigs with [] => NaN | _ => Fin (mean sigs) end).
Proof.
  intros Hmu Hsig. unfold impute_mu, impute_sig. rewrite Hmu, Hsig. simpl.
  split; f_equal.
  - destruct mus; [apply np_mean_nil|by apply np_mean_mean].
  - destruct sigs; [apply np_mean_nil|by apply np_mean_mean].
Qed.

Lemma posterior_estimate_is_mean_witness :
  impute_mu sample_trace = Some (Fin (mean [Qc_of_Z 0; Qc_of_Z 1]))
  ∧ impute_sig sample_trace = Some (Fin (mean [Qc_of_Z 1; Qc_of_Z 2])).
Proof.
  apply (posterior_estimate_is_mean sample_trace
           [Qc_of_Z 0; Qc_of_Z 1] [Qc_of_Z 1; Qc_of_Z 2]).
  - apply lookup_insert_eq.
  - unfold sample_trace. rewrite lookup_insert_ne by done.
    apply lookup_singleton_eq.
Defined.



End score.

(** ** The data generator *)

Section generator.
Implicit Types (rs : random_state) (ns nf ni nt : Z).

Lemma table_length rows cols f : length (table rows cols f) = (rows * cols)%nat.
Proof.
  unfold table. generalize 0%nat at 2.
  induction rows as [|rows IH]; intros start; simpl; [done|].
  by rewrite length_app, length_fmap, length_seq, IH.
Qed.

(** The generator succeeds exactly when no size is negative; the
    informative count only enters through [min(n_features, n_informative)]. *)
Lemma make_regression_sizes ns nf ni nt rs :
  (0 ≤ ns ∧ 0 ≤ nf ∧ 0 ≤ ni ∧ 0 ≤ nt)%Z →
  ∃ X y,
    make_regression ns nf ni nt rs = Some (X, y)
    ∧ shape X = [Z.to_nat ns; Z.to_nat nf]
    ∧ length (data X) = (Z.to_nat ns * Z.to_nat nf)%nat
    ∧ shape y = filter (λ n, n ≠ 1%nat) [Z.to_nat ns; Z.to_nat nt]
    ∧ length (data y) = (Z.to_nat ns * Z.to_nat nt)%nat.
Proof.
  intros Hsizes. unfold make_regression.
  rewrite bool_decide_eq_true_2 by lia.
  eexists _, _. split_and!; [done..| |done|]; simpl; apply table_length.
Qed.

Lemma make_regression_negative ns nf ni nt rs :
  (ns < 0 ∨ nf < 0 ∨ ni < 0 ∨ nt < 0)%Z →
  make_regression ns nf ni nt rs = None.
Proof.
  intros Hneg. unfold make_regression.
  by rewrite bool_decide_eq_false_2 by lia.
Qed.

(** C8, as the claim reads, fails: with five informative features asked
    of a generator of two features the call succeeds. *)
Lemma generator_accepts_excess_informative :
  (2 < 5)%Z ∧ is_Some (make_regression 3 2 5 1 sample_rs).
Proof.
  split; [lia|].
  destruct (make_regression_sizes 3 2 5 1 sample_rs) as (X & y & -> & _); [lia|].
  by eexists.
Qed.

(** C8, amended.  The generator fails at once when a size is negative.
    It succeeds for all positive sizes and any non-negative informative
    count, also one above the feature count, and returns a feature matrix
    of [n_samples] by [n_features] entries and a target of [n_samples]
    by [n_targets] entries.  The call of the notebook succeeds. *)
Theorem generator_parameter_handling ns nf ni nt rs :
  ((1 ≤ ns ∧ 1 ≤ nf ∧ 0 ≤ ni ∧ 1 ≤ nt)%Z →
     ∃ X y,
       make_regression ns nf ni nt rs = Some (X, y)
       ∧ shape X = [Z.to_nat ns; Z.to_nat nf]
       ∧ length (data X) = (Z.to_nat ns * Z.to_nat nf)%nat
       ∧ length (data y) = (Z.to_nat ns * Z.to_nat nt)%nat)
  ∧ ((ns < 0 ∨ nf < 0 ∨ ni < 0 ∨ nt < 0)%Z →
     make_regression ns nf ni nt rs = None)
  ∧ (∃ X y,
       generate rs = Some (X, y)
       ∧ shape X = [1000%nat; 100%nat]
       ∧ shape y = [1000%nat]
       ∧ length (data y) = 1000%nat).
Proof.
  split_and!.
  - intros Hsizes.
    destruct (make_regression_sizes ns nf ni nt rs) as (X & y & ? & ? & ? & _ & ?);
      [lia|].
    by exists X, y.
  - apply make_regression_negative.
  - destruct (make_regression_sizes 1000 100 10 1 rs)
      as (X & y & Hrun & HX & _ & Hy & Hlen); [lia|].
    unfold generate. rewrite Hrun. simpl.
    eexists _, _. split_and!; [done|..]; simpl.
    + rewrite HX. by vm_compute.
    + rewrite Hy. by vm_compute.
    + rewrite length_fmap, Hlen. by vm_compute.
Qed.

Lemma generator_parameter_handling_witness :
  (∃ X y,
     make_regression 1000 100 10 1 sample_rs = Some (X, y)
     ∧ shape X = [Z.to_nat 1000; Z.to_nat 100]
     ∧ length (data X) = (Z.to_nat 1000 * Z.to_nat 100)%nat
     ∧ length (data y) = (Z.to_nat 1000 * Z.to_nat 1)%nat)
  ∧ make_regression (-1) 100 10 1 sample_rs = None.
Proof.
  destruct (generator_parameter_handling 1000 100 10 1 sample_rs) as (Hok & _ & _).
  destruct (generator_parameter_handling (-1) 100 10 1 sample_rs) as (_ & Hneg & _).
  split; [apply Hok; lia|apply Hneg; lia].
Defined.
End generator.

(** * Further properties of the notebook *)

(** ** The range of the replacement values *)

Section replacement_range.
Implicit Types (h : gmap nat (list Qc)) (y dt : ref) (ys cs v : list Qc).

Lemma bind_raise {A B} (m : M A) (f : A → M B) h :
  m h = None → (m ≫= f) h = None.
Proof. intros Hm. unfold mbind, M_bind, bind. by rewrite Hm. Qed.

Lemma drawn_Forall_support mu sig n draws :
  0 ≤ sig →
  (∀ k, Truncnorm.in_support truncation_point
          (truncation_point * Qc_of_Z 20) (draws k)) →
  Forall (λ z, truncation_point * sig + mu ≤ z
               ∧ z ≤ truncation_point * Qc_of_Z 20 * sig + mu)
    (drawn mu sig n draws).
Proof.
  intros Hsig Hdraws. apply Forall_lookup. intros k z Hz.
  by eapply drawn_support.
Qed.

(** Every boundary entry filled from values at or above the boundary
    ends at or above it, and no entry is lowered. *)
Lemma fill_raises cs v :
  Forall (λ z, truncation_point ≤ z) v → Forall2 Qcle cs (fill cs v).
Proof.
  intros Hv. revert v Hv. induction cs as [|x cs IH]; intros v Hv; simpl.
  - constructor.
  - case_decide as Hx.
    + destruct v as [|z v].
      * constructor; [apply Qcle_refl|by apply IH].
      * apply Forall_cons in Hv as [Hz Hv].
        constructor; [by rewrite Hx|by apply IH].
    + constructor; [apply Qcle_refl|by apply IH].
Qed.

(** Filled with values strictly above the boundary, one per boundary
    entry, a vector has no boundary entry left. *)
Lemma fill_clears_boundary cs v :
  Forall (λ z, truncation_point < z) v →
  length v = count_boundary cs →
  count_boundary (fill cs v) = 0%nat.
Proof.
  unfold count_boundary. intros Hv. revert v Hv.
  induction cs as [|x cs IH]; intros v Hv; simpl; [done|].
  rewrite filter_cons. case_decide as Hx; simpl.
  - destruct v as [|z v]; [done|]. intros [= Hlen].
    apply Forall_cons in Hv as [Hz Hv].
    rewrite filter_cons, decide_False; [by apply IH|].
    intros ->. by destruct (Qclt_not_eq _ _ Hz).
  - intros Hlen. rewrite filter_cons, decide_False by done. by apply IH.
Qed.

(** The replacement values lie between [mu + 2 * sig] and [mu + 40 * sig]:
    the bounds passed to the generator are scaled by [impute_sig] and
    shifted by [impute_mu]. *)
Theorem imputed_values_support h dt cs mu sig draws :
  h !! dt = Some cs → 0 ≤ sig →
  (∀ k, Truncnorm.in_support truncation_point
          (truncation_point * Qc_of_Z 20) (draws k)) →
  ∃ iv h' v,
    imputed_values dt mu sig draws h = Some (iv, h')
    ∧ h' !! iv = Some v
    ∧ length v = count_boundary cs
    ∧ Forall (λ z, truncation_point * sig + mu ≤ z
                   ∧ z ≤ truncation_point * Qc_of_Z 20 * sig + mu) v.
Proof.
  intros Hdt Hsig Hdraws.
  destruct (imputed_values_run h dt cs mu sig draws Hdt Hsig)
    as (s & iv & Hrun & _).
  eexists iv, _, _. split_and!; [exact Hrun|apply lookup_insert_eq|..].
  - apply drawn_length.
  - by apply drawn_Forall_support.
Qed.

Lemma imputed_values_support_witness :
  ∃ iv h' v,
    imputed_values 1%nat 0 1 sample_draws sample_heap_trunc = Some (iv, h')
    ∧ h' !! iv = Some v
    ∧ length v = count_boundary [Qc_of_Z 1; Qc_of_Z 2; Qc_of_Z 2]
    ∧ Forall (λ z, truncation_point * 1 + 0 ≤ z
                   ∧ z ≤ truncation_point * Qc_of_Z 20 * 1 + 0) v.
Proof.
  apply (imputed_values_support sample_heap_trunc 1%nat
           [Qc_of_Z 1; Qc_of_Z 2; Qc_of_Z 2] 0 1 sample_draws).
  - apply lookup_insert_eq.
  - by vm_compute.
  - intros k. split; by vm_compute.
Defined.

(** When [2 <= mu + 2 * sig], imputation only raises entries: each entry
    of the imputed vector is at least the entry of the censored vector,
    and each selected entry is at least the boundary. *)
Theorem imputation_raises_entries h dt cs mu sig draws :
  h !! dt = Some cs → 0 ≤ sig →
  (∀ k, Truncnorm.in_support truncation_point
          (truncation_point * Qc_of_Z 20) (draws k)) →
  truncation_point ≤ truncation_point * sig + mu →
  ∃ iv idxs di h' imp,
    imputation dt mu sig draws h = Some ((iv, idxs, di), h')
    ∧ h' !! di = Some imp
    ∧ Forall2 Qcle cs imp
    ∧ (∀ j, j ∈ idxs → ∃ z, imp !! j = Some z ∧ truncation_point ≤ z).
Proof.
  intros Hdt Hsig Hdraws Hlow.
  destruct (imputation_run h dt cs mu sig draws Hdt Hsig)
    as (iv & di & h' & Hrun & _ & Hdi & _).
  set (v := drawn mu sig (count_boundary cs) draws) in *.
  assert (Forall (λ z, truncation_point ≤ z) v) as Hv.
  { eapply Forall_impl; [by apply drawn_Forall_support|].
    intros z [Hz _]. by eapply Qcle_trans. }
  eexists iv, _, di, h', _. split_and!; [exact Hrun|exact Hdi|by apply fill_raises|].
  intros j Hj. apply list_elem_of_lookup in Hj as [k Hk].
  assert (k < length v)%nat as Hkv.
  { apply lookup_lt_Some in Hk. unfold Np.where_ in Hk.
    rewrite nonzero_from_length in Hk. unfold v. by rewrite drawn_length. }
  apply lookup_lt_is_Some_2 in Hkv as [z Hz]. exists z. split.
  - rewrite <-(Nat.sub_0_r j).
    eapply fill_lookup_boundary; [apply drawn_length|exact Hk|exact Hz].
  - by apply (Forall_lookup_1 _ _ _ _ Hv Hz).
Qed.

Lemma imputation_raises_entries_witness :
  ∃ iv idxs di h' imp,
    imputation 1%nat 0 1 sample_draws sample_heap_trunc = Some ((iv, idxs, di), h')
    ∧ h' !! di = Some imp
    ∧ Forall2 Qcle [Qc_of_Z 1; Qc_of_Z 2; Qc_of_Z 2] imp
    ∧ (∀ j, j ∈ idxs → ∃ z, imp !! j = Some z ∧ truncation_point ≤ z).
Proof.
  apply (imputation_raises_entries sample_heap_trunc 1%nat
           [Qc_of_Z 1; Qc_of_Z 2; Qc_of_Z 2] 0 1 sample_draws).
  - apply lookup_insert_eq.
  - by vm_compute.
  - intros k. split; by vm_compute.
  - by vm_compute.
Defined.

(** A negative [impute_sig] makes the draw, and with it the imputation
    step, raise: no imputed vector is produced. *)
Theorem negative_scale_raises h dt cs mu sig draws :
  h !! dt = Some cs → sig < 0 →
  imputed_values dt mu sig draws h = None
  ∧ imputation dt mu sig draws h = None.
Proof.
  intros Hdt Hsig.
  assert (imputed_values dt mu sig draws h = None) as Hnone.
  { unfold imputed_values.
    set (sel := Np.select cs (Np.equal cs truncation_point)).
    destruct (alloc_run h sel) as (s & Hs & Hfs).
    erewrite bind_run; last first.
    { unfold np_equal. erewrite bind_run; [|by apply load_run]. done. }
    erewrite bind_run; last first.
    { unfold np_getitem_mask. erewrite bind_run; [|by apply load_run].
      unfold Np.getitem_mask.
      rewrite decide_True by (unfold Np.equal; apply length_fmap).
      simpl. erewrite bind_run; [|done]. exact Hs. }
    erewrite bind_run; last first.
    { unfold np_len. erewrite bind_run; [|apply load_run, lookup_insert_eq]. done. }
    unfold truncnorm_rvs, Truncnorm.rvs.
    rewrite (bool_decide_eq_false_2 (0 ≤ sig)) by (by apply Qclt_not_le).
    by rewrite andb_false_r. }
  split; [done|]. unfold imputation. by apply bind_raise.
Qed.

Lemma negative_scale_raises_witness :
  imputed_values 1%nat 0 (- 1) sample_draws sample_heap_trunc = None
  ∧ imputation 1%nat 0 (- 1) sample_draws sample_heap_trunc = None.
Proof.
  apply (negative_scale_raises sample_heap_trunc 1%nat
           [Qc_of_Z 1; Qc_of_Z 2; Qc_of_Z 2]).
  - apply lookup_insert_eq.
  - by vm_compute.
Defined.
End replacement_range.

(** ** Running a step twice *)

Section repetition.
Implicit Types (h : gmap nat (list Qc)) (y dt : ref) (ys cs v : list Qc).

Lemma censor_idemp ys : censor (censor ys) = censor ys.
Proof.
  unfold censor, Np.clip_max. rewrite <-list_fmap_compose.
  apply list_fmap_ext. intros _ x _. simpl.
  apply minimum_id, minimum_le.
Qed.

(** Truncating the censored vector again gives a further array with the
    same data: clipping is idempotent, and the first censored vector is
    not touched. *)
Theorem censoring_twice h y ys :
  h !! y = Some ys →
  ∃ dt h1 dt2 h2,
    data_trunc y h = Some (dt, h1)
    ∧ data_trunc dt h1 = Some (dt2, h2)
    ∧ dt2 ≠ dt
    ∧ h2 !! dt = Some (censor ys)
    ∧ h2 !! dt2 = Some (censor ys).
Proof.
  intros Hy.
  destruct (data_trunc_run h y ys Hy) as (c & dt & Hrun1 & _ & _ & _).
  set (h1 := <[dt := censor ys]> (<[c := censor ys]> h)) in *.
  assert (h1 !! dt = Some (censor ys)) as Hdt by apply lookup_insert_eq.
  destruct (data_trunc_run h1 dt (censor ys) Hdt)
    as (c2 & dt2 & Hrun2 & Hfc2 & Hfdt2 & Hne2).
  rewrite censor_idemp in Hrun2.
  eexists dt, h1, dt2, _. split_and!; [exact Hrun1|exact Hrun2|congruence|..].
  - frame_lookup.
  - apply lookup_insert_eq.
Qed.

Lemma censoring_twice_witness :
  ∃ dt h1 dt2 h2,
    data_trunc 0%nat sample_heap = Some (dt, h1)
    ∧ data_trunc dt h1 = Some (dt2, h2)
    ∧ dt2 ≠ dt
    ∧ h2 !! dt = Some (censor sample_y)
    ∧ h2 !! dt2 = Some (censor sample_y).
Proof.
  apply (censoring_twice sample_heap 0%nat sample_y), lookup_singleton_eq.
Defined.

(** When [2 < mu + 2 * sig] the imputed vector has no boundary entry, so
    imputing it again, with whatever estimate and draws, selects nothing
    and returns its data unchanged. *)
Theorem imputation_twice h dt cs mu sig draws mu' sig' draws' :
  h !! dt = Some cs → 0 ≤ sig → 0 ≤ sig' →
  (∀ k, Truncnorm.in_support truncation_point
          (truncation_point * Qc_of_Z 20) (draws k)) →
  truncation_point < truncation_point * sig + mu →
  ∃ iv idxs di h' imp iv2 di2 h'',
    imputation dt mu sig draws h = Some ((iv, idxs, di), h')
    ∧ h' !! di = Some imp
    ∧ Forall (λ x, x ≠ truncation_point) imp
    ∧ imputation di mu' sig' draws' h' = Some ((iv2, [], di2), h'')
    ∧ h'' !! di2 = Some imp.
Proof.
  intros Hdt Hsig Hsig' Hdraws Hlow.
  destruct (imputation_run h dt cs mu sig draws Hdt Hsig)
    as (iv & di & h' & Hrun & _ & Hdi & _).
  set (v := drawn mu sig (count_boundary cs) draws) in *.
  assert (Forall (λ z, truncation_point < z) v) as Hv.
  { eapply Forall_impl; [by apply drawn_Forall_support|].
    intros z [Hz _]. by eapply Qclt_le_trans. }
  assert (count_boundary (fill cs v) = 0%nat) as Hclear.
  { apply fill_clears_boundary; [done|apply drawn_length]. }
  destruct (imputation_run h' di (fill cs v) mu' sig' draws' Hdi Hsig')
    as (iv2 & di2 & h'' & Hrun2 & _ & Hdi2 & _).
  rewrite where_none in Hrun2 by done.
  rewrite fill_no_boundary in Hdi2 by done.
  eexists iv, _, di, h', _, iv2, di2, h''.
  split_and!; [exact Hrun|exact Hdi| |exact Hrun2|exact Hdi2].
  apply Forall_forall. intros x Hx ->.
  unfold count_boundary in Hclear. apply length_zero_iff_nil in Hclear.
  assert (truncation_point ∈ filter (λ x, x = truncation_point) (fill cs v)) as Hin
    by by apply list_elem_of_filter.
  rewrite Hclear in Hin. by apply elem_of_nil in Hin.
Qed.

Lemma imputation_twice_witness :
  ∃ iv idxs di h' imp iv2 di2 h'',
    imputation 1%nat 0 (Qc_of_Z 2) sample_draws sample_heap_trunc
    = Some ((iv, idxs, di), h')
    ∧ h' !! di = Some imp
    ∧ Forall (λ x, x ≠ truncation_point) imp
    ∧ imputation di 0 1 sample_draws h' = Some ((iv2, [], di2), h'')
    ∧ h'' !! di2 = Some imp.
Proof.
  apply (imputation_twice sample_heap_trunc 1%nat
           [Qc_of_Z 1; Qc_of_Z 2; Qc_of_Z 2] 0 (Qc_of_Z 2) sample_draws
           0 1 sample_draws).
  - apply lookup_insert_eq.
  - by vm_compute.
  - by vm_compute.
  - intros k. split; by vm_compute.
  - by vm_compute.
Defined.
End repetition.

(** ** What the score measures *)

Section score_properties.
Implicit Types (est : estimator) (X y : ndarray) (a b r : list Qc) (c : Qc).















(** The score when nothing degenerates. *)
Lemma score_when_defined est X y r :
  np_subtract (ravel (predict est X)) (ravel y) = Some r →
  r ≠ [] → ravel y ≠ [] → Var (ravel y) ≠ 0 →
  variance_explained est X y = Some (Fin (1 - Var r / Var (ravel y))).
Proof.
  intros Hsub Hr Hy Hvar. unfold variance_explained. rewrite Hsub.
  change (Some (fsub (Fin 1) (fdiv (np_var r) (np_var (ravel y))))
          = Some (Fin (1 - Var r / Var (ravel y)))).
  by rewrite (np_var_Var _ Hr), (np_var_Var _ Hy), fdiv_finite.
Qed.

Lemma np_var_cases a :
  np_var a = NaN ∨ ∃ v, np_var a = Fin v ∧ 0 ≤ v.
Proof.
  destruct a as [|x a]; [left; apply np_var_nil|right].
  exists (Var (x :: a)). split; [by apply np_var_Var|apply Var_nonneg].
Qed.

(** A finite score is never above 1. *)
Theorem score_at_most_one est X y q :
  variance_explained est X y = Some (Fin q) → q ≤ 1.
Proof.
  unfold variance_explained. simpl.
  destruct (np_subtract (ravel (predict est X)) (ravel y)) as [r|]; [|done].
  simpl. intros [= Hq].
  destruct (np_var_cases r) as [Hr|(p & Hr & Hp)],
           (np_var_cases (ravel y)) as [Hy|(v & Hy & Hv)];
    rewrite Hr, Hy in Hq; simpl in Hq; try done.
  case_bool_decide as Hv0; [by case_bool_decide|].
  injection Hq as <-.
  assert (0 < v) as Hpos.
  { apply Qcle_lt_or_eq in Hv as [?|?]; [done|congruence]. }
  assert (0 ≤ p / v) as Hd.
  { unfold Qcdiv. apply Qcmult_nonneg_nonneg; [done|].
    by apply Qclt_le_weak, Qcinv_pos. }
  apply Qcle_minus_iff.
  by replace (1 + - (1 - p / v)) with (p / v) by ring.
Qed.

Lemma score_at_most_one_witness :
  ∃ q, variance_explained sample_est sample_X sample_target = Some (Fin q)
       ∧ q ≤ 1.
Proof.
  assert (variance_explained sample_est sample_X sample_target
          = Some (Fin (1 - Var [Qc_of_Z 1 - Qc_of_Z 1; Qc_of_Z 3 - Qc_of_Z 2]
                           / Var (ravel sample_target)))) as Hq.
  { apply (score_when_defined sample_est sample_X sample_target); [done..|].
    intros H%Qceq_alt. by vm_compute in H. }
  eexists. split; [exact Hq|].
  exact (score_at_most_one sample_est sample_X sample_target _ Hq).
Defined.

Lemma np_subtract_None a b :
  np_subtract a b = None
  ↔ length a ≠ length b ∧ length a ≠ 1%nat ∧ length b ≠ 1%nat.
Proof.
  unfold np_subtract. case_decide as Hlen.
  - split; [done|]. by intros [? _].
  - destruct a as [|x [|x' a]], b as [|t [|t' b]]; simpl in *;
      (split; [intros ?|intros (? & ? & ?)]); try done; try lia.
Qed.

(** The score raises exactly when the predictions and the target have
    different numbers of entries and neither has a single entry; a
    division by zero never raises. *)
Theorem score_raises_iff est X y :
  variance_explained est X y = None
  ↔ length (ravel (predict est X)) ≠ length (ravel y)
    ∧ length (ravel (predict est X)) ≠ 1%nat
    ∧ length (ravel y) ≠ 1%nat.
Proof.
  rewrite <-np_subtract_None. unfold variance_explained.
  by destruct (np_subtract (ravel (predict est X)) (ravel y)).
Qed.

Lemma score_raises_iff_witness :
  variance_explained sample_est_long sample_X sample_target = None.
Proof.
  apply (proj2 (score_raises_iff sample_est_long sample_X sample_target)).
  simpl. lia.
Defined.
End score_properties.

(** ** The posterior estimate and the draw *)

Section posterior.
Implicit Types (a : list Qc) (lo hi : Qc).

Lemma np_sum_lower a lo :
  Forall (λ x, lo ≤ x) a → Qc_of_nat (length a) * lo ≤ np_sum a.
Proof.
  induction 1 as [|x a Hx _ IH]; simpl.
  - change (Qc_of_nat 0) with (Qc_of_Z 0). rewrite Z2Qc_inj_0, Qcmult_0_l.
    apply Qcle_refl.
  - rewrite Qc_of_nat_S.
    replace ((1 + Qc_of_nat (length a)) * lo)
      with (lo + Qc_of_nat (length a) * lo) by ring.
    by apply Qcplus_le_compat.
Qed.


Lemma mean_lower a lo : a ≠ [] → Forall (λ x, lo ≤ x) a → lo ≤ mean a.
Proof.
  intros Ha Hlo. apply length_nonzero in Ha.
  apply (Qcmult_le_mono_pos_r _ _ (Qc_of_nat (length a)));
    [by apply Qc_of_nat_pos|].
  unfold mean.
  replace (np_sum a / Qc_of_nat (length a) * Qc_of_nat (length a))
    with (np_sum a) by (field; by apply Qc_of_nat_nonzero).
  rewrite Qcmult_comm. by apply np_sum_lower.
Qed.




(** From a trace whose scale samples are not negative, the estimate is a
    pair of finite numbers with a scale that is not negative, and
    truncation followed by imputation with this estimate does not raise. *)
Theorem posterior_estimate_feeds_imputation (trace1 : gmap string (list Qc))
    mus sigs (h : gmap nat (list Qc)) (y : ref) ys draws :
  trace1 !! "Normal_mu" = Some mus →
  trace1 !! "Normal_sig" = Some sigs →
  mus ≠ [] → sigs ≠ [] →
  Forall (λ x, 0 ≤ x) sigs →
  h !! y = Some ys →
  ∃ m s,
    impute_mu trace1 = Some (Fin m) ∧ impute_sig trace1 = Some (Fin s)
    ∧ 0 ≤ s
    ∧ is_Some (impute y m s draws h).
Proof.
  intros Hmu Hsig Hmus Hsigs Hpos Hy.
  exists (mean mus), (mean sigs).
  assert (0 ≤ mean sigs) as Hs by by apply mean_lower.
  unfold impute_mu, impute_sig. rewrite Hmu, Hsig. simpl.
  rewrite !np_mean_mean by done. split_and!; try done.
  destruct (impute_run h y ys (mean mus) (mean sigs) draws Hy Hs)
    as (dt & iv & di & h' & Hrun & _).
  by eexists.
Qed.

Lemma posterior_estimate_feeds_imputation_witness :
  ∃ m s,
    impute_mu sample_trace = Some (Fin m) ∧ impute_sig sample_trace = Some (Fin s)
    ∧ 0 ≤ s
    ∧ is_Some (impute 0%nat m s sample_draws sample_heap).
Proof.
  apply (posterior_estimate_feeds_imputation sample_trace
           [Qc_of_Z 0; Qc_of_Z 1] [Qc_of_Z 1; Qc_of_Z 2]
           sample_heap 0%nat sample_y sample_draws).
  - apply lookup_insert_eq.
  - unfold sample_trace. rewrite lookup_insert_ne by done.
    apply lookup_singleton_eq.
  - done.
  - done.
  - repeat constructor; by vm_compute.
  - apply lookup_singleton_eq.
Defined.
End posterior.

(** ** The empirical distribution plot *)

Lemma filter_all {A} (P : A → Prop) `{∀ z, Decision (P z)} (l : list A) :
  Forall P l → filter P l = l.
Proof.
  induction 1 as [|z l Hz _ IH]; [done|].
  by rewrite filter_cons, decide_True, IH.
Qed.

Lemma filter_none {A} (P : A → Prop) `{∀ z, Decision (P z)} (l : list A) :
  Forall (λ z, ¬ P z) l → filter P l = [].
Proof.
  induction 1 as [|z l Hz _ IH]; [done|].
  by rewrite filter_cons, decide_False, IH.
Qed.

Section ecdf.
Implicit Types (data a l : list Qc) (ax : list collection)
  (kwargs : gmap string string) (k n : nat) (x b : Qc).

Lemma np_sort_sorted a : StronglySorted Qcle (np_sort a).
Proof. apply StronglySorted_merge_sort; apply _. Qed.

Lemma np_sort_perm a : np_sort a ≡ₚ a.
Proof. apply merge_sort_Permutation. Qed.

Lemma np_sort_length a : length (np_sort a) = length a.
Proof. apply Permutation_length, np_sort_perm. Qed.

(** The ascending arrangement of the entries is unique: any sorted
    rearrangement of an array is its [np.sort]. *)
Lemma np_sort_unique a l : StronglySorted Qcle l → l ≡ₚ a → l = np_sort a.
Proof.
  intros Hl Hp. apply (StronglySorted_unique Qcle); [done|apply np_sort_sorted|].
  by rewrite np_sort_perm.
Qed.

Lemma arange_over_length n : length (arange_over n) = n.
Proof. unfold arange_over. by rewrite length_fmap, length_seq. Qed.

Lemma arange_over_lookup n k :
  (k < n)%nat → arange_over n !! k = Some (Qc_of_nat (S k) / Qc_of_nat n).
Proof.
  intros Hk. unfold arange_over.
  by rewrite list_lookup_fmap, lookup_seq_lt.
Qed.

Lemma Qc_of_nat_lt j k : (j < k)%nat → Qc_of_nat j < Qc_of_nat k.
Proof.
  intros Hjk. unfold Qc_of_nat.
  apply (proj1 (Z2Qc_inj_lt (Z.of_nat j) (Z.of_nat k))). lia.
Qed.

Lemma Qc_of_nat_le j k : (j ≤ k)%nat → Qc_of_nat j ≤ Qc_of_nat k.
Proof.
  intros Hjk. unfold Qc_of_nat.
  apply (proj1 (Z2Qc_inj_le (Z.of_nat j) (Z.of_nat k))). lia.
Qed.

Lemma ecdf_scatter_run data ax kwargs :
  ecdf_scatter data ax kwargs
  = Some (ax ++ [{| points := zip (np_sort data) (arange_over (length data));
                    keywords := kwargs |}]).
Proof.
  unfold ecdf_scatter, ax_scatter.
  by rewrite decide_True by (by rewrite np_sort_length, arange_over_length).
Qed.

(** In a sorted array, the entry at position [k] has at least [k + 1]
    entries at or below it and at most [k] entries strictly below it. *)
Lemma sorted_rank l k x :
  StronglySorted Qcle l → l !! k = Some x →
  (S k ≤ length (filter (λ z, (z ≤ x)%Qc) l))%nat
  ∧ (length (filter (λ z, (z < x)%Qc) l) ≤ k)%nat.
Proof.
  intros Hl Hk.
  assert (k < length l)%nat as Hlt by by eapply lookup_lt_Some.
  rewrite <-(take_drop_middle l k x Hk) in Hl |- *.
  assert (Forall (λ z, (z ≤ x)%Qc) (take k l)) as Hbefore.
  { apply Forall_forall. intros z Hz.
    apply (StronglySorted_app_1_elem_of _ _ _ _ _ Hl Hz). by left. }
  assert (Forall (λ z, x ≤ z) (drop (S k) l)) as Hafter.
  { apply StronglySorted_app_1_r, StronglySorted_cons in Hl. by destruct Hl. }
  rewrite !filter_app, !length_app, !filter_cons.
  rewrite (filter_all (λ z, (z ≤ x)%Qc)) by done.
  rewrite decide_True by apply Qcle_refl.
  rewrite (decide_False (P := x < x)) by (intros Hxx; by destruct (Qclt_not_eq _ _ Hxx)).
  rewrite (filter_none (λ z, (z < x)%Qc) (drop (S k) l)); last first.
  { eapply Forall_impl; [exact Hafter|]. intros z Hz. by apply Qcle_not_lt. }
  rewrite length_take_le by lia. simpl.
  pose proof (length_filter (λ z, (z < x)%Qc) (take k l)) as Hf.
  rewrite length_take_le in Hf by lia. lia.
Qed.


(** The ordinates of the series are [1/n, 2/n, ..., n/n] for [n] data
    entries: they increase strictly, lie in the interval from 0
    (excluded) to 1, and the last one is 1. *)
Theorem ecdf_scatter_heights data ax kwargs :
  ∃ c,
    ecdf_scatter data ax kwargs = Some (ax ++ [c])
    ∧ (∀ k p, points c !! k = Some p →
         p.2 = Qc_of_nat (S k) / Qc_of_nat (length data)
         ∧ 0 < p.2 ∧ p.2 ≤ 1
         ∧ (S k = length data → p.2 = 1))
    ∧ (∀ j k p q, (j < k)%nat → points c !! j = Some p → points c !! k = Some q →
         p.2 < q.2).
Proof.
  eexists. split; [apply ecdf_scatter_run|]. simpl.
  set (n := length data).
  assert (∀ k p, zip (np_sort data) (arange_over n) !! k = Some p →
                 (k < n)%nat ∧ p.2 = Qc_of_nat (S k) / Qc_of_nat n) as Hpt.
  { intros k [x ht] Hk. apply lookup_zip_Some in Hk as [_ Hk].
    assert (k < n)%nat as Hlt.
    { apply lookup_lt_Some in Hk. by rewrite arange_over_length in Hk. }
    rewrite arange_over_lookup in Hk by done. by injection Hk as <-. }
  split.
  - intros k p Hk. destruct (Hpt k p Hk) as [Hlt ->].
    assert (0 < Qc_of_nat n) as Hn by (apply Qc_of_nat_pos; lia).
    assert (0 < / Qc_of_nat n) as Hinv by by apply Qcinv_pos.
    split_and!; [done|..].
    + unfold Qcdiv. apply Qcmult_pos_pos; [|done]. apply Qc_of_nat_pos. lia.
    + replace 1 with (Qc_of_nat n / Qc_of_nat n)
        by (field; by apply Qclt_not_eq in Hn).
      unfold Qcdiv. apply Qcmult_le_mono_nonneg_r; [by apply Qclt_le_weak|].
      apply Qc_of_nat_le. lia.
    + intros ->. field. intros E. rewrite E in Hn. by destruct (Qclt_not_eq _ _ Hn).
  - intros j k p q Hjk Hj Hk.
    destruct (Hpt j p Hj) as [_ ->]. destruct (Hpt k q Hk) as [Hlt ->].
    assert (0 < / Qc_of_nat n) as Hinv by (apply Qcinv_pos, Qc_of_nat_pos; lia).
    unfold Qcdiv. apply Qcmult_lt_mono_pos_r; [done|].
    apply Qc_of_nat_lt. lia.
Qed.

(** The series is the empirical distribution of the data: for the point
    of rank [k] (from 0), at least [k + 1] data entries are at or below
    its abscissa and at most [k] are strictly below it. *)
Theorem ecdf_scatter_counts data ax kwargs :
  ∃ c,
    ecdf_scatter data ax kwargs = Some (ax ++ [c])
    ∧ ∀ k p, points c !! k = Some p →
        (S k ≤ length (filter (λ z, (z ≤ p.1)%Qc) data))%nat
        ∧ (length (filter (λ z, (z < p.1)%Qc) data) ≤ k)%nat.
Proof.
  eexists. split; [apply ecdf_scatter_run|]. simpl.
  intros k [x ht] Hk. apply lookup_zip_Some in Hk as [Hk _]. simpl.
  destruct (sorted_rank (np_sort data) k x (np_sort_sorted data) Hk) as [Hle Hlt].
  by rewrite !(np_sort_perm data) in Hle, Hlt.
Qed.
End ecdf.

(** ** The plot of the original against the imputed target *)

Section ecdf_comparison.
Implicit Types (h : gmap nat (list Qc)) (y : ref) (ys cs v l : list Qc).

(** Sorting puts the entries below a bound first. *)
Lemma np_sort_split l b :
  np_sort l
  = np_sort (filter (λ x, (x < b)%Qc) l) ++ np_sort (filter (λ x, ¬ (x < b)%Qc) l).
Proof.
  symmetry. apply np_sort_unique.
  - apply StronglySorted_app_2; [|apply np_sort_sorted..].
    intros x1 x2 Hx1 Hx2.
    rewrite np_sort_perm in Hx1, Hx2.
    apply list_elem_of_filter in Hx1 as [Hx1 _].
    apply list_elem_of_filter in Hx2 as [Hx2 _].
    apply Qclt_le_weak. eapply Qclt_le_trans; [exact Hx1|].
    by apply Qcnot_lt_le.
  - rewrite !np_sort_perm. apply filter_app_complement.
Qed.

(** Below the boundary the imputed vector has the entries of the target. *)
Lemma fill_censor_below ys v :
  Forall (λ z, truncation_point ≤ z) v →
  filter (λ x, (x < truncation_point)%Qc) (fill (censor ys) v)
  = filter (λ x, (x < truncation_point)%Qc) ys.
Proof.
  intros Hv. revert v Hv. unfold censor, Np.clip_max.
  induction ys as [|x ys IH]; intros v Hv; [done|].
  rewrite fmap_cons. simpl. rewrite (filter_cons _ x ys).
  destruct (decide (x < truncation_point)) as [Hx|Hx].
  - rewrite minimum_id by by apply Qclt_le_weak.
    rewrite decide_False by by apply Qclt_not_eq.
    rewrite filter_cons, decide_True by done. f_equal. by apply IH.
  - assert (Np.minimum x truncation_point = truncation_point) as ->
      by by apply minimum_eq_iff, Qcnot_lt_le.
    rewrite decide_True by done.
    assert (¬ truncation_point < truncation_point) as Hirr.
    { intros Hlt. by destruct (Qclt_not_eq _ _ Hlt). }
    destruct v as [|z v].
    + rewrite filter_cons, decide_False by done. by apply IH.
    + apply Forall_cons in Hv as [Hz Hv].
      rewrite filter_cons, decide_False by (by apply Qcle_not_lt). by apply IH.
Qed.

(** The first points of a series are those of the entries below a bound. *)
Lemma ecdf_points_below l b n :
  take (length (filter (λ x, (x < b)%Qc) l)) (zip (np_sort l) (arange_over n))
  = zip (np_sort (filter (λ x, (x < b)%Qc) l))
        (take (length (filter (λ x, (x < b)%Qc) l)) (arange_over n)).
Proof.
  rewrite zip_with_take. f_equal.
  rewrite (np_sort_split l b).
  apply take_app_length'. by rewrite np_sort_length.
Qed.

Lemma ecdf_points_above l b n k p :
  (length (filter (λ x, (x < b)%Qc) l) ≤ k)%nat →
  zip (np_sort l) (arange_over n) !! k = Some p → b ≤ p.1.
Proof.
  intros Hk Hp. destruct p as [x ht]. apply lookup_zip_Some in Hp as [Hp _].
  rewrite (np_sort_split l b) in Hp.
  rewrite lookup_app_r in Hp by (by rewrite np_sort_length).
  apply list_elem_of_lookup_2 in Hp. rewrite np_sort_perm in Hp.
  apply list_elem_of_filter in Hp as [Hp _]. by apply Qcnot_lt_le.
Qed.

(** When [2 <= mu + 2 * sig], the two series of the plot agree below the
    boundary: with [m] entries of the target strictly below the boundary,
    the first [m] points of the imputed series are the first [m] points
    of the original series, and all later points of both series have an
    abscissa at or above the boundary. *)
Theorem ecdf_plot_agrees_below_boundary h y ys mu sig draws :
  h !! y = Some ys → 0 ≤ sig →
  (∀ k, Truncnorm.in_support truncation_point
          (truncation_point * Qc_of_Z 20) (draws k)) →
  truncation_point ≤ truncation_point * sig + mu →
  ∃ dt iv idxs di h' imp original imputed,
    impute y mu sig draws h = Some ((dt, iv, idxs, di), h')
    ∧ h' !! di = Some imp
    ∧ ecdf_plot ys imp = Some [original; imputed]
    ∧ take (length (filter (λ x, (x < truncation_point)%Qc) ys)) (points imputed)
      = take (length (filter (λ x, (x < truncation_point)%Qc) ys)) (points original)
    ∧ (∀ k p, (length (filter (λ x, (x < truncation_point)%Qc) ys) ≤ k)%nat →
         points original !! k = Some p ∨ points imputed !! k = Some p →
         truncation_point ≤ p.1).
Proof.
  intros Hy Hsig Hdraws Hlow.
  destruct (impute_run h y ys mu sig draws Hy Hsig)
    as (dt & iv & di & h' & Hrun & _ & _ & Hdi & _).
  set (v := drawn mu sig (count_boundary (censor ys)) draws) in *.
  assert (Forall (λ z, truncation_point ≤ z) v) as Hv.
  { eapply Forall_impl; [by apply drawn_Forall_support|].
    intros z [Hz _]. by eapply Qcle_trans. }
  pose proof (fill_censor_below ys v Hv) as Hbelow.
  assert (length (fill (censor ys) v) = length ys) as Hlen
    by (by rewrite fill_length, censor_length).
  eexists dt, iv, _, di, h', _, _, _.
  split_and!; [exact Hrun|exact Hdi|..].
  - unfold ecdf_plot. rewrite ecdf_scatter_run. simpl.
    by rewrite ecdf_scatter_run.
  - simpl. rewrite Hlen, <-Hbelow at 1.
    rewrite !ecdf_points_below. by rewrite Hbelow.
  - simpl. intros k p Hk [Hp|Hp].
    + by eapply ecdf_points_above.
    + rewrite <-Hbelow in Hk. by eapply ecdf_points_above.
Qed.

Lemma ecdf_plot_agrees_below_boundary_witness :
  ∃ dt iv idxs di h' imp original imputed,
    impute 0%nat 0 1 sample_draws sample_heap = Some ((dt, iv, idxs, di), h')
    ∧ h' !! di = Some imp
    ∧ ecdf_plot sample_y imp = Some [original; imputed]
    ∧ take (length (filter (λ x, (x < truncation_point)%Qc) sample_y)) (points imputed)
      = take (length (filter (λ x, (x < truncation_point)%Qc) sample_y))
          (points original)
    ∧ (∀ k p, (length (filter (λ x, (x < truncation_point)%Qc) sample_y) ≤ k)%nat →
         points original !! k = Some p ∨ points imputed !! k = Some p →
         truncation_point ≤ p.1).
Proof.
  apply (ecdf_plot_agrees_below_boundary sample_heap 0%nat sample_y 0 1
           sample_draws).
  - apply lookup_singleton_eq.
  - by vm_compute.
  - intros k. split; by vm_compute.
  - by vm_compute.
Defined.
End ecdf_comparison.

(** ** The table of scores *)

Section score_table.
Implicit Types (scores_ori scores_imp vals : list npfloat) (name : string).

Lemma rows_of_column name vals :
  rows_of name ((λ v, (name, v)) <$> vals) = vals.
Proof.
  unfold rows_of. rewrite filter_all.
  - rewrite <-list_fmap_compose. by rewrite list_fmap_id.
  - apply Forall_fmap, Forall_true. by intros v.
Qed.

Lemma rows_of_other_column name name' vals :
  name' ≠ name → rows_of name ((λ v, (name', v)) <$> vals) = [].
Proof.
  intros Hne. unfold rows_of. rewrite filter_none; [done|].
  apply Forall_fmap, Forall_true. by intros v.
Qed.

Lemma rows_of_app name (df1 df2 : list (string * npfloat)) :
  rows_of name (df1 ++ df2) = rows_of name df1 ++ rows_of name df2.
Proof. unfold rows_of. by rewrite filter_app, fmap_app. Qed.

(** With as many scores for the original as for the imputed target, the
    table has one row per score, each labelled [original] or [imputed],
    and the rows of a label carry the scores of that target in order:
    melting loses nothing. *)
Theorem scores_df_round_trip scores_ori scores_imp :
  length scores_ori = length scores_imp →
  ∃ df,
    scores_df scores_ori scores_imp = Some df
    ∧ length df = (length scores_ori + length scores_imp)%nat
    ∧ rows_of "original" df = scores_ori
    ∧ rows_of "imputed" df = scores_imp
    ∧ Forall (λ row, row.1 = "original" ∨ row.1 = "imputed") df.
Proof.
  intros Hlen. unfold scores_df, DataFrame.
  rewrite bool_decide_eq_true_2 by (repeat constructor; done).
  eexists. split; [done|]. unfold melt. simpl. rewrite app_nil_r.
  split_and!.
  - by rewrite length_app, !length_fmap.
  - rewrite rows_of_app, rows_of_column, rows_of_other_column by done.
    apply app_nil_r.
  - by rewrite rows_of_app, rows_of_column, rows_of_other_column by done.
  - apply Forall_app. split; apply Forall_fmap, Forall_true; intros v; auto.
Qed.

Lemma scores_df_round_trip_witness :
  ∃ df,
    scores_df [Fin 1; NaN] [Fin 0; Inf true] = Some df
    ∧ length df = (2 + 2)%nat
    ∧ rows_of "original" df = [Fin 1; NaN]
    ∧ rows_of "imputed" df = [Fin 0; Inf true]
    ∧ Forall (λ row, row.1 = "original" ∨ row.1 = "imputed") df.
Proof.
  apply (scores_df_round_trip [Fin 1; NaN] [Fin 0; Inf true]). reflexivity.
Defined.

(** The table cannot be built, and the cell raises, exactly when the
    two arrays of scores have different lengths. *)
Theorem scores_df_raises_iff scores_ori scores_imp :
  scores_df scores_ori scores_imp = None
  ↔ length scores_ori ≠ length scores_imp.
Proof.
  unfold scores_df, DataFrame. case_bool_decide as Hall; simpl.
  - split; [done|]. intros Hne. destruct Hne.
    apply Forall_cons in Hall as [_ Hall].
    apply Forall_cons in Hall as [Hall _]. done.
  - split; [|done]. intros _ Hlen. destruct Hall.
    repeat constructor; done.
Qed.

Lemma scores_df_raises_iff_witness :
  scores_df [Fin 1; NaN] [Fin 0] = None.
Proof.
  apply (proj2 (scores_df_raises_iff [Fin 1; NaN] [Fin 0])). simpl. lia.
Defined.
End score_table.
